(** * core-js-101, [src/05-objects-tasks.js]: the CSS selector builder

    A shallow embedding of the [Builder] class, of the
    [cssSelectorBuilder] facade and of [getJSON] and [fromJSON], followed
    by the properties of the specification that concern them.

    JavaScript methods mutate [this] and may [throw] after having mutated
    it.  Both effects are kept: a method is a function from the state
    before the call to the state after it, paired with either the thrown
    exception or the returned value.  Objects live in a store indexed by
    references, so that two expressions naming the same builder see the
    same mutations. *)

From Stdlib Require Import ZArith.
From Stdlib Require Import Ascii.
From Stdlib Require DecimalPos.
From Stdlib Require Import Sorting.Sorted.
From stdpp Require Import base strings list gmap pretty.

(** ** Exceptions *)

Inductive exn : Type :=
| Error (message : string)   (* [throw new Error(message)] *)
| TypeError.                 (* raised by the runtime: method of a value that has none *)

(** The two messages thrown by [Builder]. *)
Definition DuplicateFragmentError : exn :=
  Error "Element, id and pseudo-element should not occur more then one time inside the selector".

Definition OrderViolationError : exn :=
  Error "Selector parts should be arranged in the following order: element, id, class, attribute, pseudo-class, pseudo-element".

(** ** Mutation and exceptions *)

Definition M (S A : Type) : Type := S -> S * (exn + A).

Definition ret {S A} (a : A) : M S A := fun s => (s, inr a).

Definition throw {S A} (e : exn) : M S A := fun s => (s, inl e).

Definition bind {S A B} (m : M S A) (k : A -> M S B) : M S B :=
  fun s =>
    match m s with
    | (s', inl e) => (s', inl e)
    | (s', inr a) => k a s'
    end.

Definition get {S} : M S S := fun s => (s, inr s).

Definition modify {S} (f : S -> S) : M S unit := fun s => (f s, inr tt).

Declare Scope js_scope.
Delimit Scope js_scope with js.
Notation "x <- c1 ;; c2" := (bind c1 (fun x => c2))
  (at level 100, c1 at next level, c2 at level 200, right associativity) : js_scope.
Notation "c1 ;; c2" := (bind c1 (fun _ => c2))
  (at level 100, c2 at level 200, right associativity) : js_scope.
Local Open Scope js_scope.

(** State after a call, and what the call raised or returned. *)
Definition state_after {S A} (r : S * (exn + A)) : S := fst r.
Definition outcome {S A} (r : S * (exn + A)) : exn + A := snd r.

(** ** The fragment of the JavaScript library the class uses *)

(** Values found in the fields of a [Builder]: strings, numbers, and
    arrays of those. *)
Inductive atom : Type :=
| AStr (s : string)
| ANum (n : Z).

Inductive jsval : Type :=
| Atom (a : atom)
| Arr (l : list atom).

(** [v.length]: defined on strings and arrays, [undefined] on numbers. *)
Definition js_length (v : jsval) : option nat :=
  match v with
  | Atom (AStr s) => Some (String.length s)
  | Atom (ANum _) => None
  | Arr l => Some (length l)
  end.

(** [x > 0], false when [x] is [undefined]. *)
Definition gt0 (x : option nat) : bool :=
  match x with
  | Some n => Nat.ltb 0 n
  | None => false
  end.

Definition to_string (a : atom) : string :=
  match a with
  | AStr s => s
  | ANum n => pretty n
  end.

(** [Array.prototype.push] *)
Definition push {A} (x : A) (l : list A) : list A := l ++ [x].

(** [Array.prototype.includes], the argument may be [undefined] *)
Definition includes (l : list string) (value : option string) : bool :=
  match value with
  | Some v => existsb (String.eqb v) l
  | None => false
  end.

(** [Array.prototype.reduce] with an initial value; the callback may throw. *)
Fixpoint reduce {S A B} (callback : B -> A -> M S B) (res : B) (l : list A) : M S B :=
  match l with
  | [] => ret res
  | val :: l' => (res' <- callback res val ;; reduce callback res' l')
  end.

(** [Array.prototype.flat], depth 1 *)
Fixpoint flat (l : list jsval) : list atom :=
  match l with
  | [] => []
  | Atom a :: l' => a :: flat l'
  | Arr xs :: l' => xs ++ flat l'
  end.

(** [Array.prototype.join] *)
Fixpoint join (sep : string) (l : list atom) : string :=
  match l with
  | [] => ""
  | [a] => to_string a
  | a :: l' => to_string a +:+ sep +:+ join sep l'
  end.

(** ** class Builder *)

Module Builder.

Record t : Type := mk {
  elem : string;
  idTag : string;
  classes : list string;
  attributes : list string;
  pseudoClasses : list string;
  pseudoElem : string;
  order : list Z
}.

Definition constructor : t := mk "" "" [] [] [] "" [].

(** Field assignments. *)
Definition set_elem (v : string) (this : t) : t :=
  mk v (idTag this) (classes this) (attributes this) (pseudoClasses this)
     (pseudoElem this) (order this).
Definition set_idTag (v : string) (this : t) : t :=
  mk (elem this) v (classes this) (attributes this) (pseudoClasses this)
     (pseudoElem this) (order this).
Definition set_classes (v : list string) (this : t) : t :=
  mk (elem this) (idTag this) v (attributes this) (pseudoClasses this)
     (pseudoElem this) (order this).
Definition set_attributes (v : list string) (this : t) : t :=
  mk (elem this) (idTag this) (classes this) v (pseudoClasses this)
     (pseudoElem this) (order this).
Definition set_pseudoClasses (v : list string) (this : t) : t :=
  mk (elem this) (idTag this) (classes this) (attributes this) v
     (pseudoElem this) (order this).
Definition set_pseudoElem (v : string) (this : t) : t :=
  mk (elem this) (idTag this) (classes this) (attributes this)
     (pseudoClasses this) v (order this).
Definition set_order (v : list Z) (this : t) : t :=
  mk (elem this) (idTag this) (classes this) (attributes this)
     (pseudoClasses this) (pseudoElem this) v.

(** [Object.entries(this)]: own properties in creation order. *)
Definition entries (this : t) : list (string * jsval) :=
  [ ("elem", Atom (AStr (elem this)));
    ("idTag", Atom (AStr (idTag this)));
    ("classes", Arr (map AStr (classes this)));
    ("attributes", Arr (map AStr (attributes this)));
    ("pseudoClasses", Arr (map AStr (pseudoClasses this)));
    ("pseudoElem", Atom (AStr (pseudoElem this)));
    ("order", Arr (map ANum (order this))) ].

Definition isAlreadyDefined (selectorType : string) (value : option string)
  : M t bool :=
  this <- get ;;
  if String.eqb selectorType "element" then
    ret (negb (String.eqb (elem this) ""))
  else if String.eqb selectorType "id" then
    ret (negb (String.eqb (idTag this) ""))
  else if String.eqb selectorType "class" then
    ret (includes (classes this) value)
  else if String.eqb selectorType "attr" then
    ret (includes (attributes this) value)
  else if String.eqb selectorType "pseudoClass" then
    ret (includes (pseudoClasses this) value)
  else if String.eqb selectorType "pseudoElement" then
    ret (negb (String.eqb (pseudoElem this) ""))
  else
    ret false.

Definition checkOrder : M t Z :=
  this <- get ;;
  reduce (fun res val =>
            if (val >=? res)%Z then ret val
            else throw OrderViolationError)
         0%Z (order this).

Definition stringify : M t string :=
  this <- get ;;
  res <- reduce (fun res el =>
                   if gt0 (js_length (snd el)) && negb (String.eqb (fst el) "order")
                   then ret (push (snd el) res)
                   else ret res)
                [] (entries this) ;;
  ret (join "" (flat res)).

Definition element (value : string) : M t unit :=
  defined <- isAlreadyDefined "element" None ;;
  if defined : bool then throw DuplicateFragmentError
  else
    modify (set_elem value) ;;
    modify (fun this => set_order (push 1%Z (order this)) this) ;;
    checkOrder ;;
    ret tt.

Definition id (value : string) : M t unit :=
  defined <- isAlreadyDefined "id" None ;;
  if defined : bool then throw DuplicateFragmentError
  else
    modify (set_idTag ("#" +:+ value)) ;;
    modify (fun this => set_order (push 2%Z (order this)) this) ;;
    checkOrder ;;
    ret tt.

Definition class (value : string) : M t unit :=
  modify (fun this => set_classes (push ("." +:+ value) (classes this)) this) ;;
  modify (fun this => set_order (push 3%Z (order this)) this) ;;
  checkOrder ;;
  ret tt.

Definition attr (value : string) : M t unit :=
  modify (fun this => set_attributes (push ("[" +:+ value +:+ "]") (attributes this)) this) ;;
  modify (fun this => set_order (push 4%Z (order this)) this) ;;
  checkOrder ;;
  ret tt.

Definition pseudoClass (value : string) : M t unit :=
  modify (fun this => set_pseudoClasses (push (":" +:+ value) (pseudoClasses this)) this) ;;
  modify (fun this => set_order (push 5%Z (order this)) this) ;;
  checkOrder ;;
  ret tt.

Definition pseudoElement (value : string) : M t unit :=
  defined <- isAlreadyDefined "pseudoElement" None ;;
  if defined : bool then throw DuplicateFragmentError
  else
    modify (set_pseudoElem ("::" +:+ value)) ;;
    modify (fun this => set_order (push 6%Z (order this)) this) ;;
    checkOrder ;;
    ret tt.

End Builder.

(** ** The store of objects *)

Abbreviation loc := positive.

(** The two shapes of object the module creates: a [Builder], and the
    object literal returned by [combine], whose only data is [result]. *)
Inductive object : Type :=
| OBuilder (b : Builder.t)
| OCombined (result : string).

Abbreviation heap := (gmap loc object).

(** Allocation at a reference not in use. *)
Definition alloc (o : object) : M heap loc :=
  fun h => let l := fresh (dom h) in (<[l := o]> h, inr l).

(** [new Builder()] *)
Definition new_Builder : M heap loc := alloc (OBuilder Builder.constructor).

(** [this.m(...)] for a method [m] of class [Builder]: the method runs on
    the object stored at [this] and its mutations are written back, also
    when it throws. Any other object has no such method. *)
Definition method {A} (this : loc) (m : M Builder.t A) : M heap A :=
  fun h =>
    match h !! this with
    | Some (OBuilder b) =>
        let r := m b in (<[this := OBuilder (state_after r)]> h, outcome r)
    | _ => (h, inl TypeError)
    end.

(** A fragment method ends with [return this]. *)
Definition fluent (this : loc) (m : M Builder.t unit) : M heap loc :=
  method this m ;; ret this.

(** [selector.stringify()], dispatched on the object at [selector]. *)
Definition stringify (selector : loc) : M heap string :=
  fun h =>
    match h !! selector with
    | Some (OBuilder _) => method selector Builder.stringify h
    | Some (OCombined result) => (h, inr result)
    | None => (h, inl TypeError)
    end.

(** ** const cssSelectorBuilder *)

Module cssSelectorBuilder.

Definition element (value : string) : M heap loc :=
  this <- new_Builder ;; fluent this (Builder.element value).

Definition id (value : string) : M heap loc :=
  this <- new_Builder ;; fluent this (Builder.id value).

Definition class (value : string) : M heap loc :=
  this <- new_Builder ;; fluent this (Builder.class value).

Definition attr (value : string) : M heap loc :=
  this <- new_Builder ;; fluent this (Builder.attr value).

Definition pseudoClass (value : string) : M heap loc :=
  this <- new_Builder ;; fluent this (Builder.pseudoClass value).

Definition pseudoElement (value : string) : M heap loc :=
  this <- new_Builder ;; fluent this (Builder.pseudoElement value).

Definition combine (selector1 : loc) (combinator : string) (selector2 : loc)
  : M heap loc :=
  s1 <- stringify selector1 ;;
  s2 <- stringify selector2 ;;
  alloc (OCombined (s1 +:+ " " +:+ combinator +:+ " " +:+ s2)).

End cssSelectorBuilder.

(** ** Sequences of fragment calls *)

(** The six fragment-adding calls, under the names the specification gives
    them. *)
Inductive fragment_call : Type :=
| AddElement (value : string)
| AddId (value : string)
| AddClass (value : string)
| AddAttribute (value : string)
| AddPseudoClass (value : string)
| AddPseudoElement (value : string).

Definition invoke (c : fragment_call) : M Builder.t unit :=
  match c with
  | AddElement v => Builder.element v
  | AddId v => Builder.id v
  | AddClass v => Builder.class v
  | AddAttribute v => Builder.attr v
  | AddPseudoClass v => Builder.pseudoClass v
  | AddPseudoElement v => Builder.pseudoElement v
  end.

(** A fluent chain [b.m1(v1).m2(v2)...]: the first exception ends it. *)
Fixpoint chain (calls : list fragment_call) : M Builder.t unit :=
  match calls with
  | [] => ret tt
  | c :: calls' => (invoke c ;; chain calls')
  end.

(** The same calls made one statement at a time by a caller that catches
    every exception and goes on: only the state is carried along. *)
Fixpoint run_caught (calls : list fragment_call) (b : Builder.t) : Builder.t :=
  match calls with
  | [] => b
  | c :: calls' => run_caught calls' (state_after (invoke c b))
  end.

(** Calls on arbitrary references of the store, every exception caught. *)
Fixpoint heap_run_caught (calls : list (loc * fragment_call)) (h : heap) : heap :=
  match calls with
  | [] => h
  | (l, c) :: calls' => heap_run_caught calls' (state_after (fluent l (invoke c) h))
  end.

(** [n] successive calls of the same method, results collected. *)
Fixpoint repeat_call {St A} (n : nat) (m : M St A) : M St (list A) :=
  match n with
  | O => ret []
  | S n' => (a <- m ;; rest <- repeat_call n' m ;; ret (a :: rest))
  end.

(** Builder states that calls can produce from [new Builder()], whether
    the calls returned or threw. *)
Inductive reachable : Builder.t -> Prop :=
| reachable_new : reachable Builder.constructor
| reachable_call b c : reachable b -> reachable (state_after (invoke c b)).

(** ** The vocabulary of the specification *)

Inductive category : Type :=
| CatElement | CatId | CatClass | CatAttribute | CatPseudoClass | CatPseudoElement.

Global Instance category_eq_dec : EqDecision category.
Proof. solve_decision. Defined.

Definition category_of (c : fragment_call) : category :=
  match c with
  | AddElement _ => CatElement
  | AddId _ => CatId
  | AddClass _ => CatClass
  | AddAttribute _ => CatAttribute
  | AddPseudoClass _ => CatPseudoClass
  | AddPseudoElement _ => CatPseudoElement
  end.

(** element=1, id=2, class=3, attribute=4, pseudo-class=5, pseudo-element=6 *)
Definition rank_of (k : category) : Z :=
  match k with
  | CatElement => 1
  | CatId => 2
  | CatClass => 3
  | CatAttribute => 4
  | CatPseudoClass => 5
  | CatPseudoElement => 6
  end.

Definition rank (c : fragment_call) : Z := rank_of (category_of c).

(** The pre-formatted string of a fragment. *)
Definition formatted (c : fragment_call) : string :=
  match c with
  | AddElement v => v
  | AddId v => "#" +:+ v
  | AddClass v => "." +:+ v
  | AddAttribute v => "[" +:+ v +:+ "]"
  | AddPseudoClass v => ":" +:+ v
  | AddPseudoElement v => "::" +:+ v
  end.

(** The formatted fragments of one category, in call order. *)
Definition fragments (k : category) (calls : list fragment_call) : list string :=
  map formatted (filter (fun c => category_of c = k) calls).

(** The rendering the specification prescribes for a sequence of calls:
    categories in fixed order, insertion order inside a category, nothing
    in between. *)
Definition rendered (calls : list fragment_call) : string :=
  String.concat ""
    (fragments CatElement calls ++ fragments CatId calls ++
     fragments CatClass calls ++ fragments CatAttribute calls ++
     fragments CatPseudoClass calls ++ fragments CatPseudoElement calls).

(** The categories that are lists in the builder. *)
Definition is_list_category (k : category) : bool :=
  match k with
  | CatClass | CatAttribute | CatPseudoClass => true
  | _ => false
  end.

(** The list of the builder a call of a list category pushes to. *)
Definition list_field (k : category) (b : Builder.t) : list string :=
  match k with
  | CatClass => Builder.classes b
  | CatAttribute => Builder.attributes b
  | CatPseudoClass => Builder.pseudoClasses b
  | _ => []
  end.

(** The single-valued field a call would set is already set (non-empty). *)
Definition already_set (c : fragment_call) (b : Builder.t) : bool :=
  match c with
  | AddElement _ => negb (String.eqb (Builder.elem b) "")
  | AddId _ => negb (String.eqb (Builder.idTag b) "")
  | AddPseudoElement _ => negb (String.eqb (Builder.pseudoElem b) "")
  | _ => false
  end.

(** The builder's text: its fields in declaration order, [order] left out. *)
Definition text (b : Builder.t) : string :=
  Builder.elem b +:+ Builder.idTag b +:+
  String.concat "" (Builder.classes b) +:+
  String.concat "" (Builder.attributes b) +:+
  String.concat "" (Builder.pseudoClasses b) +:+
  Builder.pseudoElem b.

(** The order check as a function of the rank sequence alone: the running
    value of the [reduce] in [checkOrder], or the exception. *)
Fixpoint order_scan (res : Z) (l : list Z) : exn + Z :=
  match l with
  | [] => inr res
  | val :: l' =>
      if (val >=? res)%Z then order_scan val l' else inl OrderViolationError
  end.

(** What a fragment call does to the fields, the checks left aside. *)
Definition applied (c : fragment_call) (b : Builder.t) : Builder.t :=
  let b' :=
    match c with
    | AddElement v => Builder.set_elem v b
    | AddId v => Builder.set_idTag ("#" +:+ v) b
    | AddClass v => Builder.set_classes (Builder.classes b ++ ["." +:+ v]) b
    | AddAttribute v =>
        Builder.set_attributes (Builder.attributes b ++ ["[" +:+ v +:+ "]"]) b
    | AddPseudoClass v =>
        Builder.set_pseudoClasses (Builder.pseudoClasses b ++ [":" +:+ v]) b
    | AddPseudoElement v => Builder.set_pseudoElem ("::" +:+ v) b
    end in
  Builder.set_order (Builder.order b ++ [rank c]) b'.

(** ** Values and stores used as examples *)

(** The one-character string made of a quotation mark. *)
Definition dquote : string := String (Ascii.ascii_of_nat 34) EmptyString.

(** [a = element('div').id('main')], [b = element('table').id('data')] *)
Definition div_and_table : heap :=
  state_after ((a <- cssSelectorBuilder.element "div" ;;
                fluent a (Builder.id "main") ;;
                b <- cssSelectorBuilder.element "table" ;;
                fluent b (Builder.id "data")) ∅).

(** [a = element('div')], [b = element('p')] *)
Definition div_and_p : heap :=
  state_after ((cssSelectorBuilder.element "div" ;;
                cssSelectorBuilder.element "p") ∅).

(** ... followed by [c = combine(a, '>', b)] *)
Definition div_child_p : heap :=
  state_after (cssSelectorBuilder.combine 1%positive ">" 2%positive div_and_p).

(** ** More vocabulary: single-valued fields, the facade as one function *)

(** The string field of the builder a call of a single-valued category
    assigns. *)
Definition single_field (k : category) (b : Builder.t) : string :=
  match k with
  | CatElement => Builder.elem b
  | CatId => Builder.idTag b
  | CatPseudoElement => Builder.pseudoElem b
  | _ => ""
  end.

(** The entry point of the facade for each fragment call. *)
Definition facade (c : fragment_call) : M heap loc :=
  match c with
  | AddElement v => cssSelectorBuilder.element v
  | AddId v => cssSelectorBuilder.id v
  | AddClass v => cssSelectorBuilder.class v
  | AddAttribute v => cssSelectorBuilder.attr v
  | AddPseudoClass v => cssSelectorBuilder.pseudoClass v
  | AddPseudoElement v => cssSelectorBuilder.pseudoElement v
  end.

(** A fluent chain on a reference of the store: each call is made on the
    reference the previous one returned. *)
Fixpoint fluent_chain (this : loc) (calls : list fragment_call) : M heap loc :=
  match calls with
  | [] => ret this
  | c :: calls' => (this' <- fluent this (invoke c) ;; fluent_chain this' calls')
  end.

(** The sequences of calls that suit a builder in state [b]: the ranks go
    on non-decreasing, every [element] call but the last carries the empty
    string, [id] and [pseudoElement] come at most once, and none of the
    three comes when the builder has that fragment set. *)
Definition suits (b : Builder.t) (calls : list fragment_call) : Prop :=
  Sorted Z.le (0%Z :: Builder.order b ++ map rank calls) /\
  (Builder.elem b <> "" -> fragments CatElement calls = []) /\
  Forall (fun s => s = "") (removelast (fragments CatElement calls)) /\
  (Builder.idTag b <> "" -> fragments CatId calls = []) /\
  length (fragments CatId calls) <= 1 /\
  (Builder.pseudoElem b <> "" -> fragments CatPseudoElement calls = []) /\
  length (fragments CatPseudoElement calls) <= 1.

(** On a new builder. *)
Definition accepted (calls : list fragment_call) : Prop :=
  Sorted Z.le (map rank calls) /\
  Forall (fun s => s = "") (removelast (fragments CatElement calls)) /\
  length (fragments CatId calls) <= 1 /\
  length (fragments CatPseudoElement calls) <= 1.

(** The first string of a list that is not empty, the empty string when
    there is none. *)
Fixpoint first_nonempty (l : list string) : string :=
  match l with
  | [] => ""
  | s :: l' => if String.eqb s "" then first_nonempty l' else s
  end.

(** What a new builder renders after a sequence of calls made one by one,
    exceptions caught: of the fragments that occur once the first that
    was set, of the others all of them. *)
Definition rendered_caught (calls : list fragment_call) : string :=
  first_nonempty (fragments CatElement calls) +:+
  first_nonempty (fragments CatId calls) +:+
  String.concat "" (fragments CatClass calls) +:+
  String.concat "" (fragments CatAttribute calls) +:+
  String.concat "" (fragments CatPseudoClass calls) +:+
  first_nonempty (fragments CatPseudoElement calls).

(** * Plain data, [getJSON] and [fromJSON]

    [getJSON] and [fromJSON] only call [JSON.stringify], [JSON.parse] and
    [Object.setPrototypeOf]. These three belong to the language, not to the
    repository: they are modelled here from their documentation (ECMA-262,
    sections JSON.stringify, JSON.parse and Object.setPrototypeOf), called
    without replacer, indentation or reviver as the source calls them, on
    the values described below. These values hold no function, so that
    [JSON.stringify] finds no [toJSON] method to call and no property to
    leave out for being one. *)

(** ** Values *)

(** The numbers of the model: the doubles that are integers, zero standing
    for both zeros (which [===] does not tell apart), and the three doubles
    that are not finite. The other doubles are left out. *)
Inductive number : Type :=
| NaN
| Infinity
| NegInfinity
| Int (z : Z).

(** Values without cycles. A string is a sequence of code units below 256;
    the fields of an object are its own enumerable properties in
    enumeration order; every object and array has the prototype the
    language gives it. *)
#[local] Set Warnings "-register-all".
Inductive value : Type :=
| VUndefined
| VNull
| VBool (b : bool)
| VNumber (n : number)
| VString (s : string)
| VArray (elements : list value)
| VObject (fields : list (string * value)).

(** How a call of one of the three functions ends. *)
Inductive completion (A : Type) : Type :=
| Normal (a : A)
| ThrowSyntaxError
| ThrowTypeError
| Unmodelled       (* the model does not say: see [parse_number], [parse_chars] *)
| OutOfFuel.
Arguments Normal {A} a.
Arguments ThrowSyntaxError {A}.
Arguments ThrowTypeError {A}.
Arguments Unmodelled {A}.
Arguments OutOfFuel {A}.

Definition andThen {A B} (c : completion A) (k : A -> completion B) : completion B :=
  match c with
  | Normal a => k a
  | ThrowSyntaxError => ThrowSyntaxError
  | ThrowTypeError => ThrowTypeError
  | Unmodelled => Unmodelled
  | OutOfFuel => OutOfFuel
  end.

(** ** Characters *)

Definition quotation_mark : Ascii.ascii := Ascii.ascii_of_nat 34.
Definition reverse_solidus : Ascii.ascii := Ascii.ascii_of_nat 92.

Definition is_whitespace (c : Ascii.ascii) : bool :=
  Ascii.eqb c " "%char || Ascii.eqb c "009"%char || Ascii.eqb c "010"%char || Ascii.eqb c "013"%char.

Definition digit_of_char (c : Ascii.ascii) : option (Decimal.uint -> Decimal.uint) :=
  if Ascii.eqb c "0"%char then Some Decimal.D0
  else if Ascii.eqb c "1"%char then Some Decimal.D1
  else if Ascii.eqb c "2"%char then Some Decimal.D2
  else if Ascii.eqb c "3"%char then Some Decimal.D3
  else if Ascii.eqb c "4"%char then Some Decimal.D4
  else if Ascii.eqb c "5"%char then Some Decimal.D5
  else if Ascii.eqb c "6"%char then Some Decimal.D6
  else if Ascii.eqb c "7"%char then Some Decimal.D7
  else if Ascii.eqb c "8"%char then Some Decimal.D8
  else if Ascii.eqb c "9"%char then Some Decimal.D9
  else None.

Definition is_digit (c : Ascii.ascii) : bool :=
  match digit_of_char c with Some _ => true | None => false end.

Definition hex_digit (n : N) : Ascii.ascii :=
  match n with
  | 0 => "0" | 1 => "1" | 2 => "2" | 3 => "3" | 4 => "4" | 5 => "5" | 6 => "6"
  | 7 => "7" | 8 => "8" | 9 => "9" | 10 => "a" | 11 => "b" | 12 => "c"
  | 13 => "d" | 14 => "e" | _ => "f"
  end%N%char.

Definition hex_value (c : Ascii.ascii) : option N :=
  let n := Ascii.N_of_ascii c in
  if (48 <=? n)%N && (n <=? 57)%N then Some (n - 48)%N
  else if (97 <=? n)%N && (n <=? 102)%N then Some (n - 87)%N
  else if (65 <=? n)%N && (n <=? 70)%N then Some (n - 55)%N
  else None.

(** ** [JSON.stringify] *)

(** QuoteJSONString: the two-character escapes, [\u00xx] for the other
    code units below 32, the code unit itself otherwise. *)
Definition escape_char (c : Ascii.ascii) : string :=
  if Ascii.eqb c "008"%char then String reverse_solidus "b"
  else if Ascii.eqb c "009"%char then String reverse_solidus "t"
  else if Ascii.eqb c "010"%char then String reverse_solidus "n"
  else if Ascii.eqb c "012"%char then String reverse_solidus "f"
  else if Ascii.eqb c "013"%char then String reverse_solidus "r"
  else if Ascii.eqb c quotation_mark then String reverse_solidus (String quotation_mark "")
  else if Ascii.eqb c reverse_solidus then String reverse_solidus (String reverse_solidus "")
  else if (Ascii.N_of_ascii c <? 32)%N then
    String reverse_solidus
      (String "u"%char (String "0"%char (String "0"
         (String (hex_digit (Ascii.N_of_ascii c / 16))
            (String (hex_digit (Ascii.N_of_ascii c mod 16)) "")))))
  else String c "".

Fixpoint escape (s : string) : string :=
  match s with
  | EmptyString => ""
  | String c s' => escape_char c +:+ escape s'
  end.

Definition QuoteJSONString (s : string) : string :=
  String quotation_mark (escape s +:+ String quotation_mark "").

Fixpoint string_of_uint (d : Decimal.uint) : string :=
  match d with
  | Decimal.Nil => ""
  | Decimal.D0 d => String "0"%char (string_of_uint d)
  | Decimal.D1 d => String "1"%char (string_of_uint d)
  | Decimal.D2 d => String "2"%char (string_of_uint d)
  | Decimal.D3 d => String "3"%char (string_of_uint d)
  | Decimal.D4 d => String "4"%char (string_of_uint d)
  | Decimal.D5 d => String "5"%char (string_of_uint d)
  | Decimal.D6 d => String "6"%char (string_of_uint d)
  | Decimal.D7 d => String "7"%char (string_of_uint d)
  | Decimal.D8 d => String "8"%char (string_of_uint d)
  | Decimal.D9 d => String "9"%char (string_of_uint d)
  end.

(** Number::toString on an integer below 10^21: its decimal digits. *)
Definition integer_to_string (z : Z) : string :=
  match z with
  | Z0 => "0"
  | Zpos p => string_of_uint (Pos.to_uint p)
  | Zneg p => String "-"%char (string_of_uint (Pos.to_uint p))
  end.

(** A number that is not finite is written [null]. *)
Definition number_to_json (n : number) : string :=
  match n with
  | Int z => integer_to_string z
  | _ => "null"
  end.

(** SerializeJSONProperty; [None] is [undefined]. In an array [undefined]
    is written [null]; in an object a property whose value is [undefined]
    is left out. *)
Fixpoint SerializeJSONProperty (v : value) : option string :=
  match v with
  | VUndefined => None
  | VNull => Some "null"
  | VBool true => Some "true"
  | VBool false => Some "false"
  | VNumber n => Some (number_to_json n)
  | VString s => Some (QuoteJSONString s)
  | VArray elements =>
      Some ("[" +:+
            String.concat ","
              (map (fun e => match SerializeJSONProperty e with
                             | Some text => text
                             | None => "null"
                             end) elements)
            +:+ "]")
  | VObject fields =>
      Some ("{" +:+
            String.concat ","
              (flat_map (fun kv => match SerializeJSONProperty (snd kv) with
                                   | Some text => [QuoteJSONString (fst kv) +:+ ":" +:+ text]
                                   | None => []
                                   end) fields)
            +:+ "}")
  end.

(** ** [JSON.parse] *)

Fixpoint skip_whitespace (s : string) : string :=
  match s with
  | EmptyString => ""
  | String c s' => if is_whitespace c then skip_whitespace s' else s
  end.

(** [strip prefix s]: what follows [prefix] in [s]. *)
Fixpoint strip (prefix s : string) : option string :=
  match prefix with
  | EmptyString => Some s
  | String p prefix' =>
      match s with
      | EmptyString => None
      | String c s' => if Ascii.eqb c p then strip prefix' s' else None
      end
  end.

(** The character an escape sequence of two characters stands for. *)
Definition unescape (e : Ascii.ascii) : option Ascii.ascii :=
  if Ascii.eqb e quotation_mark then Some quotation_mark
  else if Ascii.eqb e reverse_solidus then Some reverse_solidus
  else if Ascii.eqb e "/"%char then Some "/"%char
  else if Ascii.eqb e "b"%char then Some "008"%char
  else if Ascii.eqb e "f"%char then Some "012"%char
  else if Ascii.eqb e "n"%char then Some "010"%char
  else if Ascii.eqb e "r"%char then Some "013"%char
  else if Ascii.eqb e "t"%char then Some "009"%char
  else None.

Definition hex4 (h1 h2 h3 h4 : Ascii.ascii) : option N :=
  match hex_value h1, hex_value h2, hex_value h3, hex_value h4 with
  | Some a, Some b, Some c, Some d => Some (((a * 16 + b) * 16 + c) * 16 + d)%N
  | _, _, _, _ => None
  end.

(** The characters of a string after its opening quotation mark, up to
    the closing one. A [\u] escape of a code unit above 255 is a string
    the model does not have. *)
Fixpoint parse_chars (s : string) (acc : string) : completion (string * string) :=
  match s with
  | EmptyString => ThrowSyntaxError
  | String c s' =>
      if Ascii.eqb c quotation_mark then Normal (acc, s')
      else if Ascii.eqb c reverse_solidus then
        match s' with
        | EmptyString => ThrowSyntaxError
        | String e s'' =>
            match unescape e with
            | Some c' => parse_chars s'' (acc +:+ String c' "")
            | None =>
                if Ascii.eqb e "u"%char then
                  match s'' with
                  | String h1 (String h2 (String h3 (String h4 s4))) =>
                      match hex4 h1 h2 h3 h4 with
                      | Some n =>
                          if (n <? 256)%N
                          then parse_chars s4 (acc +:+ String (Ascii.ascii_of_N n) "")
                          else Unmodelled
                      | None => ThrowSyntaxError
                      end
                  | _ => ThrowSyntaxError
                  end
                else ThrowSyntaxError
            end
        end
      else if (Ascii.N_of_ascii c <? 32)%N then ThrowSyntaxError
      else parse_chars s' (acc +:+ String c "")
  end.

(** The longest run of digits at the head of a string. *)
Fixpoint read_digits (s : string) : Decimal.uint * string :=
  match s with
  | EmptyString => (Decimal.Nil, "")
  | String c s' =>
      match digit_of_char c with
      | Some digit => let (d, rest) := read_digits s' in (digit d, rest)
      | None => (Decimal.Nil, s)
      end
  end.

Definition starts_fraction_or_exponent (s : string) : bool :=
  match s with
  | EmptyString => false
  | String c _ => Ascii.eqb c "."%char || Ascii.eqb c "e"%char || Ascii.eqb c "E"%char
  end.

(** A number: an optional minus sign, then [0] or a digit other than 0
    followed by digits. When a fraction or an exponent follows, or the
    integer is 2^53 or more, the model does not say what the number is. *)
Definition parse_number (s : string) : completion (number * string) :=
  let (negative, s1) :=
    match s with
    | String c s' => if Ascii.eqb c "-"%char then (true, s') else (false, s)
    | EmptyString => (false, s)
    end in
  let (d, rest) := read_digits s1 in
  if negb (Decimal.uint_beq (Decimal.unorm d) d) then ThrowSyntaxError
  else if starts_fraction_or_exponent rest then Unmodelled
  else if (N.of_uint d <? 2 ^ 53)%N then
    Normal (Int (if negative : bool then - Z.of_N (N.of_uint d) else Z.of_N (N.of_uint d)),
            rest)
  else Unmodelled.

(** An array index: the decimal digits of an integer below 2^32 - 1,
    without leading zero. *)
Definition array_index (name : string) : option N :=
  match read_digits name with
  | (d, EmptyString) =>
      if Decimal.uint_beq (Decimal.unorm d) d && (N.of_uint d <? 2 ^ 32 - 1)%N
      then Some (N.of_uint d)
      else None
  | _ => None
  end.

(** The own properties of an object are enumerated array indices first,
    in ascending order, then the other names in creation order:
    [enumerated_before k k'] says that a new name [k] comes before the
    existing name [k']. *)
Definition enumerated_before (k k' : string) : bool :=
  match array_index k, array_index k' with
  | Some i, Some j => (i <? j)%N
  | Some _, None => true
  | None, _ => false
  end.

Fixpoint insert_field (fields : list (string * value)) (k : string) (v : value)
  : list (string * value) :=
  match fields with
  | [] => [(k, v)]
  | (k', v') :: fields' =>
      if enumerated_before k k' then (k, v) :: fields
      else (k', v') :: insert_field fields' k v
  end.

Fixpoint replace_field (fields : list (string * value)) (k : string) (v : value)
  : list (string * value) :=
  match fields with
  | [] => []
  | (k', v') :: fields' =>
      if String.eqb k' k then (k', v) :: fields'
      else (k', v') :: replace_field fields' k v
  end.

(** CreateDataProperty during parsing: a name met again keeps its place
    and takes the new value, a new name takes its place in the
    enumeration. *)
Definition set_field (fields : list (string * value)) (k : string) (v : value)
  : list (string * value) :=
  if existsb (fun kv => String.eqb (fst kv) k) fields
  then replace_field fields k v
  else insert_field fields k v.

Fixpoint parse_value (fuel : nat) (s : string) : completion (value * string) :=
  match fuel with
  | O => OutOfFuel
  | S fuel' =>
      match skip_whitespace s with
      | EmptyString => ThrowSyntaxError
      | String c s' =>
          if is_digit c || Ascii.eqb c "-"%char then
            andThen (parse_number (String c s'))
              (fun r => Normal (VNumber (fst r), snd r))
          else if Ascii.eqb c quotation_mark then
            andThen (parse_chars s' "")
              (fun r => Normal (VString (fst r), snd r))
          else if Ascii.eqb c "["%char then
            match skip_whitespace s' with
            | EmptyString => ThrowSyntaxError
            | String c' rest =>
                if Ascii.eqb c' "]" then Normal (VArray [], rest)
                else parse_elements fuel' s' []
            end
          else if Ascii.eqb c "{"%char then
            match skip_whitespace s' with
            | EmptyString => ThrowSyntaxError
            | String c' rest =>
                if Ascii.eqb c' "}" then Normal (VObject [], rest)
                else parse_members fuel' s' []
            end
          else
            match strip "null" (String c s') with
            | Some rest => Normal (VNull, rest)
            | None =>
                match strip "true" (String c s') with
                | Some rest => Normal (VBool true, rest)
                | None =>
                    match strip "false" (String c s') with
                    | Some rest => Normal (VBool false, rest)
                    | None => ThrowSyntaxError
                    end
                end
            end
      end
  end
with parse_elements (fuel : nat) (s : string) (acc : list value)
  : completion (value * string) :=
  match fuel with
  | O => OutOfFuel
  | S fuel' =>
      andThen (parse_value fuel' s)
        (fun r =>
           match skip_whitespace (snd r) with
           | EmptyString => ThrowSyntaxError
           | String c rest =>
               if Ascii.eqb c ","%char then parse_elements fuel' rest (acc ++ [fst r])
               else if Ascii.eqb c "]"%char then Normal (VArray (acc ++ [fst r]), rest)
               else ThrowSyntaxError
           end)
  end
with parse_members (fuel : nat) (s : string) (acc : list (string * value))
  : completion (value * string) :=
  match fuel with
  | O => OutOfFuel
  | S fuel' =>
      match skip_whitespace s with
      | EmptyString => ThrowSyntaxError
      | String q s' =>
          if Ascii.eqb q quotation_mark then
            andThen (parse_chars s' "")
              (fun key =>
                 match skip_whitespace (snd key) with
                 | EmptyString => ThrowSyntaxError
                 | String colon s'' =>
                     if Ascii.eqb colon ":"%char then
                       andThen (parse_value fuel' s'')
                         (fun r =>
                            match skip_whitespace (snd r) with
                            | EmptyString => ThrowSyntaxError
                            | String c rest =>
                                if Ascii.eqb c ","%char then
                                  parse_members fuel' rest
                                    (set_field acc (fst key) (fst r))
                                else if Ascii.eqb c "}"%char then
                                  Normal (VObject (set_field acc (fst key) (fst r)), rest)
                                else ThrowSyntaxError
                            end)
                     else ThrowSyntaxError
                 end)
          else ThrowSyntaxError
      end
  end.

Module JSON.

(** [JSON.stringify(value)]; [None] is [undefined]. *)
Definition stringify (v : value) : option string := SerializeJSONProperty v.

(** [JSON.parse(text)]: one value, white space around it allowed, nothing
    else. The text is long enough as fuel. *)
Definition parse (text : string) : completion value :=
  andThen (parse_value (S (String.length text)) text)
    (fun r =>
       match skip_whitespace (snd r) with
       | EmptyString => Normal (fst r)
       | String _ _ => ThrowSyntaxError
       end).

End JSON.

(** ** [Object.setPrototypeOf] *)

(** A prototype given by the caller: its operations by name. *)
Definition behaviour (F : Type) : Type := list (string * F).

(** A value and the prototype set on it; [None]: the prototype has not
    been set. *)
Record instance (F : Type) : Type := mk_instance {
  target : value;
  prototype : option (behaviour F)
}.
Arguments mk_instance {F} target prototype.
Arguments target {F} i.
Arguments prototype {F} i.

Module Object.

(** [Object.setPrototypeOf(obj, proto)], [proto] an object: a TypeError on
    [undefined] and [null]; an object or an array gets the prototype; any
    other value is returned as it is. *)
Definition setPrototypeOf {F} (obj : value) (proto : behaviour F)
  : completion (instance F) :=
  match obj with
  | VUndefined | VNull => ThrowTypeError
  | VArray _ | VObject _ => Normal (mk_instance obj (Some proto))
  | _ => Normal (mk_instance obj None)
  end.

End Object.

(** ** The two functions of the source *)

Definition getJSON (obj : value) : option string := JSON.stringify obj.

Definition fromJSON {F} (proto : behaviour F) (json : string)
  : completion (instance F) :=
  andThen (JSON.parse json) (fun obj => Object.setPrototypeOf obj proto).

(** ** Reading a property *)

Fixpoint assoc {A} (name : string) (l : list (string * A)) : option A :=
  match l with
  | [] => None
  | (k, a) :: l' => if String.eqb k name then Some a else assoc name l'
  end.

(** The own property [name] of an object or an array (an element by its
    index in decimal, or [length]). *)
Definition own_property (v : value) (name : string) : option value :=
  match v with
  | VObject fields => assoc name fields
  | VArray elements =>
      if String.eqb name "length"
      then Some (VNumber (Int (Z.of_nat (length elements))))
      else
        match array_index name with
        | Some i => nth_error elements (N.to_nat i)
        | None => None
        end
  | _ => None
  end.

Inductive property (F : Type) : Type :=
| Data (v : value)
| Operation (f : F)
| Absent.
Arguments Data {F} v.
Arguments Operation {F} f.
Arguments Absent {F}.

(** [o[name]] on an object or an array: the own property if there is one,
    else the operation of that name of the prototype set on it. *)
Definition get_property {F} (o : instance F) (name : string) : property F :=
  match own_property (target o) name with
  | Some v => Data v
  | None =>
      match prototype o with
      | Some proto =>
          match assoc name proto with
          | Some f => Operation f
          | None => Absent
          end
      | None => Absent
      end
  end.

(** ** Plain data *)

Fixpoint distinct (names : list string) : bool :=
  match names with
  | [] => true
  | k :: names' => negb (existsb (String.eqb k) names') && distinct names'
  end.

(** No name of the list would be enumerated before one that precedes it. *)
Fixpoint enumeration_order (names : list string) : bool :=
  match names with
  | [] => true
  | k :: names' =>
      forallb (fun k' => negb (enumerated_before k' k)) names'
      && enumeration_order names'
  end.

(** Values that survive JSON: [null], booleans, strings, integers below
    2^53 in absolute value, and arrays and objects of these; neither
    [undefined] nor a number that is not finite anywhere. The fields of an
    object are listed as its own properties are: with distinct names, in
    enumeration order. *)
Fixpoint plain (v : value) : bool :=
  match v with
  | VUndefined => false
  | VNull | VBool _ | VString _ => true
  | VNumber (Int z) => (Z.abs z <? 2 ^ 53)%Z
  | VNumber _ => false
  | VArray elements => forallb plain elements
  | VObject fields =>
      distinct (map fst fields) && enumeration_order (map fst fields)
      && forallb (fun kv => plain (snd kv)) fields
  end.

Definition is_object (v : value) : bool :=
  match v with
  | VArray _ | VObject _ => true
  | _ => false
  end.

(** The text [JSON.stringify] writes for a value inside an array. *)
Definition element_text (v : value) : string :=
  match SerializeJSONProperty v with
  | Some text => text
  | None => "null"
  end.

(** The text it writes for a property whose value is not [undefined]. *)
Definition member_text (kv : string * value) : string :=
  QuoteJSONString (fst kv) +:+ ":" +:+ element_text (snd kv).

(** What may follow a value inside a JSON text: nothing, a comma, or the
    end of the array or object around it. *)
Definition delimited (rest : string) : bool :=
  match rest with
  | EmptyString => true
  | String c _ => Ascii.eqb c ","%char || Ascii.eqb c "]"%char || Ascii.eqb c "}"%char
  end.

(** A value begins with a character that is no white space and closes
    neither an array nor an object. *)
Definition begins_value (s : string) : bool :=
  match s with
  | EmptyString => false
  | String c _ =>
      negb (is_whitespace c) && negb (Ascii.eqb c "]"%char) && negb (Ascii.eqb c "}"%char)
  end.

(** Fuel that is enough to parse the text of a value. *)
Fixpoint need (v : value) : nat :=
  match v with
  | VArray elements => S (list_sum (map (fun e => S (need e)) elements))
  | VObject fields => S (list_sum (map (fun kv => S (need (snd kv))) fields))
  | _ => 1
  end.

(** What the induction provides for a value inside an array or object. *)
Definition reads_back (v : value) : Prop :=
  plain v = true ->
  forall (fuel : nat) (rest : string),
    need v <= fuel -> delimited rest = true ->
    parse_value fuel (element_text v +:+ rest) = Normal (v, rest).

(** Examples: [{width: 10, height: 20}] and a prototype with [getArea]. *)
Definition rectangle_data : value :=
  VObject [("width", VNumber (Int 10)); ("height", VNumber (Int 20))].

Definition area_behaviour : behaviour string := [("getArea", "width * height")].

(** * Properties *)

(** ** The order check *)

Lemma reduce_order_scan (b : Builder.t) (l : list Z) (res : Z) :
  reduce (fun res val =>
            if (val >=? res)%Z then ret val else throw OrderViolationError)
         res l b
  = (b, order_scan res l).
Proof.
  revert res. induction l as [|val l IH]; intros res; simpl; [reflexivity|].
  unfold bind. destruct (val >=? res)%Z; simpl; [apply IH | reflexivity].
Qed.

Lemma checkOrder_scan (b : Builder.t) :
  Builder.checkOrder b = (b, order_scan 0 (Builder.order b)).
Proof. unfold Builder.checkOrder, bind, get. apply reduce_order_scan. Qed.

Lemma order_scan_app (l : list Z) (r res : Z) :
  order_scan res (l ++ [r]) =
  match order_scan res l with
  | inl e => inl e
  | inr m => if (r >=? m)%Z then inr r else inl OrderViolationError
  end.
Proof.
  revert res. induction l as [|val l IH]; intros res; simpl; [reflexivity|].
  destruct (val >=? res)%Z; [apply IH | reflexivity].
Qed.

Lemma order_scan_error (l : list Z) (res : Z) (e : exn) :
  order_scan res l = inl e -> e = OrderViolationError.
Proof.
  revert res. induction l as [|val l IH]; intros res; simpl; [discriminate|].
  destruct (val >=? res)%Z; [apply IH | congruence].
Qed.

(** A scan that succeeds ends on the largest value it met. *)
Lemma order_scan_max (l : list Z) (res m : Z) :
  order_scan res l = inr m ->
  (res <= m)%Z /\ Forall (fun r => (r <= m)%Z) l /\ (m = res \/ In m l).
Proof.
  revert res. induction l as [|val l IH]; intros res; simpl.
  - intros [= <-]. split; [lia|]. split; [constructor | now left].
  - destruct (val >=? res)%Z eqn:Hge; [|discriminate].
    intros H. destruct (IH _ H) as (Hle & Hall & Hin).
    apply Z.geb_le in Hge.
    split; [lia|]. split; [constructor; [lia | exact Hall]|].
    right. destruct Hin as [-> | Hin]; [now left | now right].
Qed.

(** The scan succeeds exactly on the non-decreasing sequences. *)
Lemma order_scan_sorted (l : list Z) (res : Z) :
  Sorted Z.le (res :: l) <-> exists m, order_scan res l = inr m.
Proof.
  revert res. induction l as [|val l IH]; intros res; simpl.
  - split; [eauto | repeat constructor].
  - destruct (val >=? res)%Z eqn:Hge.
    + apply Z.geb_le in Hge. rewrite <- IH. split.
      * intros H. now inversion H.
      * intros H. constructor; [exact H | constructor; exact Hge].
    + split.
      * intros H. inversion H as [|? ? _ Hd]. inversion Hd. lia.
      * intros [m Hm]. discriminate.
Qed.

Lemma Sorted_nonneg_cons (l : list Z) :
  Forall (fun r => (0 <= r)%Z) l -> Sorted Z.le l -> Sorted Z.le (0%Z :: l).
Proof.
  intros Hall Hs. constructor; [exact Hs|].
  destruct l; constructor. now inversion Hall.
Qed.

(** ** One fragment call, step by step *)

Lemma invoke_eq (c : fragment_call) (b : Builder.t) :
  invoke c b =
  if already_set c b then (b, inl DuplicateFragmentError)
  else (applied c b,
        match order_scan 0 (Builder.order b ++ [rank c]) with
        | inl e => inl e
        | inr _ => inr tt
        end).
Proof.
  destruct c as [v|v|v|v|v|v]; simpl;
    unfold Builder.element, Builder.id, Builder.class, Builder.attr,
      Builder.pseudoClass, Builder.pseudoElement, Builder.isAlreadyDefined,
      bind, get, modify, ret, throw, applied, push, rank; simpl;
    try (destruct (negb _); [reflexivity|]);
    rewrite checkOrder_scan; simpl;
    match goal with |- context [order_scan ?r ?l] => destruct (order_scan r l) end;
    reflexivity.
Qed.

(** ** Strings *)

Lemma append_cons (a : Ascii.ascii) (s t : string) :
  String a s +:+ t = String a (s +:+ t).
Proof. reflexivity. Qed.

Lemma append_nil_l (s : string) : "" +:+ s = s.
Proof. reflexivity. Qed.

Lemma append_nil_r (s : string) : s +:+ "" = s.
Proof.
  induction s as [|a s IH]; [reflexivity|].
  rewrite append_cons, IH. reflexivity.
Qed.

Lemma append_assoc (s t u : string) : (s +:+ t) +:+ u = s +:+ t +:+ u.
Proof.
  induction s as [|a s IH]; [reflexivity|].
  rewrite !append_cons, IH. reflexivity.
Qed.

Lemma concat_cons (s : string) (l : list string) :
  String.concat "" (s :: l) = s +:+ String.concat "" l.
Proof.
  destruct l as [|t l]; simpl; [now rewrite append_nil_r|].
  now rewrite append_nil_l.
Qed.

Lemma concat_app (l1 l2 : list string) :
  String.concat "" (l1 ++ l2) = String.concat "" l1 +:+ String.concat "" l2.
Proof.
  induction l1 as [|s l1 IH]; [reflexivity|].
  rewrite <- app_comm_cons, !concat_cons, IH, append_assoc. reflexivity.
Qed.

Lemma eqb_nil_false (s : string) : negb (String.eqb s "") = true <-> s <> "".
Proof.
  rewrite negb_true_iff. destruct (String.eqb_spec s ""); split; congruence.
Qed.

(** ** [stringify] *)

Lemma flat_app (l1 l2 : list jsval) : flat (l1 ++ l2) = flat l1 ++ flat l2.
Proof.
  induction l1 as [|[a|xs] l1 IH]; simpl; [reflexivity | now rewrite IH |].
  now rewrite IH, app_assoc.
Qed.

Lemma join_cons (a : atom) (l : list atom) :
  join "" (a :: l) = to_string a +:+ join "" l.
Proof.
  destruct l as [|a' l]; simpl; [now rewrite append_nil_r|].
  now rewrite append_nil_l.
Qed.

Lemma join_app (l1 l2 : list atom) :
  join "" (l1 ++ l2) = join "" l1 +:+ join "" l2.
Proof.
  induction l1 as [|a l1 IH]; [reflexivity|].
  rewrite <- app_comm_cons, !join_cons, IH, append_assoc. reflexivity.
Qed.

Lemma join_strings (l : list string) :
  join "" (map AStr l) = String.concat "" l.
Proof.
  induction l as [|s l IH]; [reflexivity|].
  rewrite map_cons, join_cons, concat_cons, IH. reflexivity.
Qed.

(** A string field adds its characters to the output, whether the
    [length] test lets it through or finds it empty. *)
Lemma keep_string (res : list jsval) (s : string) :
  join "" (flat (if gt0 (js_length (Atom (AStr s))) then push (Atom (AStr s)) res else res))
  = join "" (flat res) +:+ s.
Proof.
  destruct s as [|a s]; simpl.
  - now rewrite append_nil_r.
  - unfold push. rewrite flat_app, join_app. simpl. reflexivity.
Qed.

(** So does an array field, element after element. *)
Lemma keep_strings (res : list jsval) (l : list string) :
  join "" (flat (if gt0 (js_length (Arr (map AStr l))) then push (Arr (map AStr l)) res else res))
  = join "" (flat res) +:+ String.concat "" l.
Proof.
  destruct l as [|s l].
  - simpl. now rewrite append_nil_r.
  - assert (gt0 (js_length (Arr (map AStr (s :: l)))) = true) as -> by reflexivity.
    unfold push. rewrite flat_app, join_app. cbn [flat]. rewrite app_nil_r, join_strings.
    reflexivity.
Qed.

Lemma stringify_reduce (b : Builder.t) (l : list (string * jsval)) (res : list jsval) :
  reduce (fun res el =>
            if gt0 (js_length (snd el)) && negb (String.eqb (fst el) "order")
            then ret (push (snd el) res)
            else ret res)
         res l b
  = (b, inr (fold_left
               (fun res el =>
                  if gt0 (js_length (snd el)) && negb (String.eqb (fst el) "order")
                  then push (snd el) res
                  else res)
               l res)).
Proof.
  revert res. induction l as [|el l IH]; intros res; simpl; [reflexivity|].
  unfold bind. destruct (gt0 _ && negb _); simpl; apply IH.
Qed.

Lemma stringify_text (b : Builder.t) :
  Builder.stringify b = (b, inr (text b)).
Proof.
  unfold Builder.stringify, bind, get. rewrite stringify_reduce.
  unfold ret, Builder.entries, text. do 2 f_equal.
  cbn [fold_left fst snd String.eqb Ascii.eqb Bool.eqb negb].
  rewrite andb_false_r, !andb_true_r.
  rewrite keep_string, !keep_strings, !keep_string.
  cbn [flat join]. rewrite append_nil_l, !append_assoc. reflexivity.
Qed.

(** ** Consequences for one call *)

Lemma state_after_invoke (c : fragment_call) (b : Builder.t) :
  state_after (invoke c b) = if already_set c b then b else applied c b.
Proof. rewrite invoke_eq. now destruct (already_set c b). Qed.

Lemma outcome_invoke (c : fragment_call) (b : Builder.t) :
  outcome (invoke c b) =
  if already_set c b then inl DuplicateFragmentError
  else match order_scan 0 (Builder.order b ++ [rank c]) with
       | inl e => inl e
       | inr _ => inr tt
       end.
Proof. rewrite invoke_eq. now destruct (already_set c b). Qed.

Lemma order_applied (c : fragment_call) (b : Builder.t) :
  Builder.order (applied c b) = Builder.order b ++ [rank c].
Proof. reflexivity. Qed.

Lemma rank_bounds (c : fragment_call) : (1 <= rank c <= 6)%Z.
Proof. destruct c; unfold rank; simpl; lia. Qed.

(** Every rank recorded in a builder is one of the six. *)
Lemma reachable_ranks (b : Builder.t) :
  reachable b -> Forall (fun r => (1 <= r <= 6)%Z) (Builder.order b).
Proof.
  induction 1 as [|b c _ IH]; [constructor|].
  rewrite state_after_invoke. destruct (already_set c b); [exact IH|].
  rewrite order_applied. apply Forall_app. split; [exact IH|].
  constructor; [apply rank_bounds | constructor].
Qed.

(** The builder carries a violation: its rank sequence fails the check. *)
Lemma violation_persists (c : fragment_call) (b : Builder.t) (e : exn) :
  order_scan 0 (Builder.order b) = inl e ->
  order_scan 0 (Builder.order (state_after (invoke c b))) = inl e.
Proof.
  intros H. rewrite state_after_invoke. destruct (already_set c b); [exact H|].
  rewrite order_applied, order_scan_app, H. reflexivity.
Qed.

Lemma violation_persists_run (calls : list fragment_call) (b : Builder.t) (e : exn) :
  order_scan 0 (Builder.order b) = inl e ->
  order_scan 0 (Builder.order (run_caught calls b)) = inl e.
Proof.
  revert b. induction calls as [|c calls IH]; intros b H; simpl; [exact H|].
  apply IH, violation_persists, H.
Qed.

Lemma order_error_leaves_violation (c : fragment_call) (b : Builder.t) :
  outcome (invoke c b) = inl OrderViolationError ->
  already_set c b = false /\
  state_after (invoke c b) = applied c b /\
  order_scan 0 (Builder.order (applied c b)) = inl OrderViolationError.
Proof.
  rewrite outcome_invoke, state_after_invoke.
  destruct (already_set c b); [discriminate|].
  rewrite order_applied.
  destruct (order_scan 0 (Builder.order b ++ [rank c])) as [e|m] eqn:Hs;
    [|discriminate].
  intros [= ->]. auto.
Qed.

(** ** Chains of calls *)

Lemma order_scan_prefix (l1 l2 : list Z) (res : Z) :
  order_scan res (l1 ++ l2) =
  match order_scan res l1 with
  | inl e => inl e
  | inr m => order_scan m l2
  end.
Proof.
  revert res. induction l1 as [|val l1 IH]; intros res; simpl; [reflexivity|].
  destruct (val >=? res)%Z; [apply IH | reflexivity].
Qed.

Lemma fragments_cons (k : category) (c : fragment_call) (calls : list fragment_call) :
  fragments k (c :: calls) =
  if decide (category_of c = k) then formatted c :: fragments k calls
  else fragments k calls.
Proof.
  unfold fragments. rewrite filter_cons. now destruct (decide _).
Qed.

Lemma fragments_other (k : category) (calls : list fragment_call) :
  Forall (fun c => is_list_category (category_of c) = true) calls ->
  is_list_category k = false ->
  fragments k calls = [].
Proof.
  intros Hall Hk. induction Hall as [|c calls Hc _ IH]; [reflexivity|].
  rewrite fragments_cons. destruct (decide _) as [<-|_]; [congruence | exact IH].
Qed.

(** A chain that goes through its first call went through both checks. *)
Lemma chain_cons_ok (c : fragment_call) (calls : list fragment_call) (b b' : Builder.t) :
  chain (c :: calls) b = (b', inr tt) ->
  already_set c b = false /\ chain calls (applied c b) = (b', inr tt).
Proof.
  cbn [chain]. unfold bind. rewrite invoke_eq.
  destruct (already_set c b); [discriminate|].
  destruct (order_scan 0 (Builder.order b ++ [rank c])); [discriminate|].
  auto.
Qed.

Lemma not_set_empty (s : string) : negb (String.eqb s "") = false -> s = "".
Proof. destruct (String.eqb_spec s ""); [auto | discriminate]. Qed.

(** What a chain that returns has done to each field: the three strings
    were empty when their call came, the three lists have grown at the
    end. *)
Lemma chain_fields (calls : list fragment_call) (b b' : Builder.t) :
  chain calls b = (b', inr tt) ->
  Builder.elem b' = Builder.elem b +:+ String.concat "" (fragments CatElement calls) /\
  Builder.idTag b' = Builder.idTag b +:+ String.concat "" (fragments CatId calls) /\
  Builder.classes b' = Builder.classes b ++ fragments CatClass calls /\
  Builder.attributes b' = Builder.attributes b ++ fragments CatAttribute calls /\
  Builder.pseudoClasses b' = Builder.pseudoClasses b ++ fragments CatPseudoClass calls /\
  Builder.pseudoElem b' =
    Builder.pseudoElem b +:+ String.concat "" (fragments CatPseudoElement calls).
Proof.
  revert b. induction calls as [|c calls IH]; intros b Hch.
  - injection Hch as <-. cbn [fragments filter map String.concat].
    rewrite !append_nil_r, !app_nil_r. tauto.
  - apply chain_cons_ok in Hch as [Hset Hch].
    destruct (IH _ Hch) as (He & Hi & Hc & Ha & Hp & Hq). clear IH Hch.
    rewrite He, Hi, Hc, Ha, Hp, Hq. clear He Hi Hc Ha Hp Hq.
    rewrite !fragments_cons.
    destruct c as [v|v|v|v|v|v]; cbn [category_of formatted already_set] in *;
      repeat case_decide; try (exfalso; congruence);
      try (apply not_set_empty in Hset; rewrite Hset);
      unfold applied;
      cbn [Builder.elem Builder.idTag Builder.classes Builder.attributes
           Builder.pseudoClasses Builder.pseudoElem Builder.set_elem
           Builder.set_idTag Builder.set_classes Builder.set_attributes
           Builder.set_pseudoClasses Builder.set_pseudoElem Builder.set_order];
      rewrite ?concat_cons, ?append_nil_l, <- ?app_assoc;
      repeat split; reflexivity.
Qed.

Lemma text_of_chain (calls : list fragment_call) (b : Builder.t) :
  chain calls Builder.constructor = (b, inr tt) -> text b = rendered calls.
Proof.
  intros Hch. apply chain_fields in Hch as (He & Hi & Hc & Ha & Hp & Hq).
  unfold text, rendered. rewrite He, Hi, Hc, Ha, Hp, Hq.
  cbn [Builder.constructor Builder.elem Builder.idTag Builder.classes
       Builder.attributes Builder.pseudoClasses Builder.pseudoElem app].
  rewrite !concat_app, !append_nil_l. reflexivity.
Qed.

(** Calls on the list categories go through as soon as the ranks do. *)
Lemma list_chain_returns (calls : list fragment_call) (b : Builder.t) (m : Z) :
  Forall (fun c => is_list_category (category_of c) = true) calls ->
  order_scan 0 (Builder.order b ++ map rank calls) = inr m ->
  exists b', chain calls b = (b', inr tt).
Proof.
  intros Hall. revert b. induction Hall as [|c calls Hc _ IH]; intros b Hscan.
  - exists b. reflexivity.
  - cbn [chain]. unfold bind. rewrite invoke_eq.
    assert (already_set c b = false) as -> by (destruct c; try discriminate Hc; reflexivity).
    cbn [map] in Hscan.
    change (rank c :: map rank calls) with ([rank c] ++ map rank calls) in Hscan.
    rewrite app_assoc, order_scan_prefix in Hscan.
    destruct (order_scan 0 (Builder.order b ++ [rank c])) as [e|m'] eqn:Hs;
      [discriminate|].
    apply IH. rewrite order_applied, order_scan_prefix, Hs. exact Hscan.
Qed.

(** ** Clean builders *)

(** On a clean builder the scan of the recorded ranks ends on the highest
    of them, so the check of one more rank compares with that one. *)
Lemma clean_scan (b : Builder.t) :
  reachable b -> Sorted Z.le (Builder.order b) ->
  exists m, order_scan 0 (Builder.order b) = inr m /\
            Forall (fun r => (r <= m)%Z) (Builder.order b) /\
            (m = 0%Z \/ In m (Builder.order b)).
Proof.
  intros Hr Hs.
  assert (Sorted Z.le (0%Z :: Builder.order b)) as Hs0.
  { apply Sorted_nonneg_cons; [|exact Hs].
    eapply List.Forall_impl; [|apply reachable_ranks, Hr]. simpl. lia. }
  apply order_scan_sorted in Hs0 as [m Hm]. exists m. split; [exact Hm|].
  apply order_scan_max in Hm. tauto.
Qed.

(** A rank below one already recorded fails the check, on any builder. *)
Lemma lower_rank_fails (l : list Z) (r x : Z) :
  In x l -> (r < x)%Z -> order_scan 0 (l ++ [r]) = inl OrderViolationError.
Proof.
  intros Hin Hlt. rewrite order_scan_app.
  destruct (order_scan 0 l) as [e|m] eqn:Hs.
  - f_equal. eapply order_scan_error, Hs.
  - apply order_scan_max in Hs as (_ & Hall & _).
    rewrite List.Forall_forall in Hall. specialize (Hall x Hin).
    destruct (r >=? m)%Z eqn:Hge; [|reflexivity].
    apply Z.geb_le in Hge. lia.
Qed.

Lemma reachable_run_caught (calls : list fragment_call) (b : Builder.t) :
  reachable b -> reachable (run_caught calls b).
Proof.
  revert b. induction calls as [|c calls IH]; intros b Hr; [exact Hr|].
  cbn [run_caught]. apply IH, reachable_call, Hr.
Qed.

(** ** The store *)

(** [stringify()] on a reference: the store is left as it was, and the
    result depends on the object found there. *)
Lemma stringify_heap (h : heap) (l : loc) :
  stringify l h =
  (h, match h !! l with
      | Some (OBuilder b) => inr (text b)
      | Some (OCombined result) => inr result
      | None => inl TypeError
      end).
Proof.
  unfold stringify, method.
  destruct (h !! l) as [[b|result]|] eqn:Hl; try reflexivity.
  rewrite stringify_text. unfold state_after, outcome. simpl.
  now rewrite insert_id.
Qed.

Lemma combine_eq (h : heap) (a b : loc) (s : string) :
  cssSelectorBuilder.combine a s b h =
  match outcome (stringify a h), outcome (stringify b h) with
  | inr ra, inr rb =>
      (<[fresh (dom h) := OCombined (ra +:+ " " +:+ s +:+ " " +:+ rb)]> h,
       inr (fresh (dom h)))
  | inl e, _ => (h, inl e)
  | inr _, inl e => (h, inl e)
  end.
Proof.
  unfold cssSelectorBuilder.combine, bind. rewrite (stringify_heap h a).
  unfold outcome at 1. cbn [snd].
  destruct (match h !! a with
            | Some (OBuilder b0) => inr (text b0)
            | Some (OCombined result) => inr result
            | None => inl TypeError
            end) as [e|ra]; [reflexivity|].
  rewrite (stringify_heap h b). unfold outcome. cbn [snd].
  destruct (match h !! b with
            | Some (OBuilder b0) => inr (text b0)
            | Some (OCombined result) => inr result
            | None => inl TypeError
            end) as [e|rb]; reflexivity.
Qed.

(** A fragment call on any reference leaves the combined objects alone:
    on a builder it rewrites that builder, on anything else it raises. *)
Lemma fluent_keeps_combined (h : heap) (l c : loc) (m : M Builder.t unit) (r : string) :
  h !! c = Some (OCombined r) ->
  state_after (fluent l m h) !! c = Some (OCombined r).
Proof.
  intros Hc. unfold fluent, bind, method.
  destruct (h !! l) as [[b|result]|] eqn:Hl; try exact Hc.
  assert (l <> c) as Hne by congruence.
  unfold state_after at 1, outcome.
  destruct (m b) as [b' [e|[]]]; cbn [fst snd ret]; now rewrite lookup_insert_ne.
Qed.

Lemma heap_run_keeps_combined (calls : list (loc * fragment_call)) (h : heap)
  (c : loc) (r : string) :
  h !! c = Some (OCombined r) ->
  heap_run_caught calls h !! c = Some (OCombined r).
Proof.
  revert h. induction calls as [|[l call] calls IH]; intros h Hc; [exact Hc|].
  cbn [heap_run_caught]. apply IH, fluent_keeps_combined, Hc.
Qed.

(** * The claims of the specification *)

(** ** Rendering *)

(** C1. When a sequence of fragment calls on a new builder goes through
    without an exception, [stringify()] returns the concatenation of the
    formatted fragments of the calls, category after category in the fixed
    order (element, ["#"]+id, the ["."]+class fragments in insertion order,
    the ["["]+attribute+["]"] fragments in insertion order, the
    [":"]+pseudo-class fragments in insertion order, ["::"]+pseudo-element),
    with nothing in between. *)
Theorem stringify_concatenates_fragments
  (calls : list fragment_call) (b : Builder.t) :
  chain calls Builder.constructor = (b, inr tt) ->
  Builder.stringify b = (b, inr (rendered calls)).
Proof.
  intros Hch. rewrite stringify_text. now rewrite (text_of_chain calls b Hch).
Qed.

(** [id('main').class('container').class('editable')] *)
Lemma stringify_concatenates_fragments_witness :
  Builder.stringify
    (run_caught [AddId "main"; AddClass "container"; AddClass "editable"]
       Builder.constructor)
  = (run_caught [AddId "main"; AddClass "container"; AddClass "editable"]
       Builder.constructor,
     inr "#main.container.editable").
Proof.
  exact (stringify_concatenates_fragments
           [AddId "main"; AddClass "container"; AddClass "editable"] _ eq_refl).
Defined.

(** [element('a').attr('href$=".png"').pseudoClass('focus')] *)
Example stringify_documented :
  outcome ((Builder.element "a" ;;
            Builder.attr ("href$=" +:+ dquote +:+ ".png" +:+ dquote) ;;
            Builder.pseudoClass "focus" ;;
            Builder.stringify) Builder.constructor)
  = inr ("a[href$=" +:+ dquote +:+ ".png" +:+ dquote +:+ "]:focus").
Proof. vm_compute. reflexivity. Qed.

(** ** Order of the categories *)

(** C2, as stated, fails twice. A lower-ranked [element] or [id] call on a
    builder that has one already raises the duplicate error, the order
    check not being reached: [element('a').class('b')] went through, then
    [element('c')]. And once an order error has been raised on a builder
    ([class('a')], then [id('b')] which raised), a call of the highest
    rank raises the order error too. *)
Lemma lower_rank_call_raises_duplicate :
  (chain [AddElement "a"; AddClass "b"] Builder.constructor
     = (run_caught [AddElement "a"; AddClass "b"] Builder.constructor, inr tt) /\
   Builder.order (run_caught [AddElement "a"; AddClass "b"] Builder.constructor)
     = [1; 3]%Z /\
   rank (AddElement "c") = 1%Z /\
   outcome (invoke (AddElement "c")
              (run_caught [AddElement "a"; AddClass "b"] Builder.constructor))
     = inl DuplicateFragmentError /\
   DuplicateFragmentError <> OrderViolationError)
  /\
  (Builder.order (run_caught [AddClass "a"; AddId "b"] Builder.constructor)
     = [3; 2]%Z /\
   rank (AddPseudoElement "x") = 6%Z /\
   outcome (invoke (AddPseudoElement "x")
              (run_caught [AddClass "a"; AddId "b"] Builder.constructor))
     = inl OrderViolationError).
Proof. repeat split. discriminate. Qed.

(** C2, amended. On every builder that fragment calls can produce:
    a call whose rank is strictly lower than a rank already appended
    raises an error, the duplicate error when the call is [element], [id]
    or [pseudoElement] and that fragment is already set, the order error
    otherwise; and when the appended ranks are non-decreasing (no order
    error has been raised on the builder), a call whose rank is greater
    than or equal to every appended rank does not raise the order error. *)
Theorem order_error_when_rank_lower (b : Builder.t) (c : fragment_call) :
  reachable b ->
  ((exists r, In r (Builder.order b) /\ (rank c < r)%Z) ->
   outcome (invoke c b) =
   if already_set c b then inl DuplicateFragmentError
   else inl OrderViolationError)
  /\
  (Sorted Z.le (Builder.order b) ->
   Forall (fun r => (r <= rank c)%Z) (Builder.order b) ->
   outcome (invoke c b) <> inl OrderViolationError).
Proof.
  intros Hr. split.
  - intros (r & Hin & Hlt). rewrite outcome_invoke.
    destruct (already_set c b); [reflexivity|].
    now rewrite (lower_rank_fails _ _ _ Hin Hlt).
  - intros Hs Hall. rewrite outcome_invoke.
    destruct (already_set c b); [discriminate|].
    destruct (clean_scan b Hr Hs) as (m & Hm & _ & Hmax).
    rewrite order_scan_app, Hm.
    assert (m <= rank c)%Z as Hle.
    { destruct Hmax as [-> | Hin].
      - pose proof (rank_bounds c). lia.
      - rewrite List.Forall_forall in Hall. apply Hall, Hin. }
    destruct (rank c >=? m)%Z eqn:Hge; [discriminate|].
    rewrite Z.geb_leb in Hge. apply Z.leb_gt in Hge. lia.
Qed.

(** After [element('a').class('b')]: [id('c')] raises the order error,
    [attr('d')] does not. *)
Lemma order_error_when_rank_lower_witness :
  outcome (invoke (AddId "c")
             (run_caught [AddElement "a"; AddClass "b"] Builder.constructor))
    = inl OrderViolationError /\
  outcome (invoke (AddAttribute "d")
             (run_caught [AddElement "a"; AddClass "b"] Builder.constructor))
    <> inl OrderViolationError.
Proof.
  assert (reachable (run_caught [AddElement "a"; AddClass "b"] Builder.constructor))
    as Hr by (apply reachable_run_caught, reachable_new).
  split.
  - apply (proj1 (order_error_when_rank_lower _ (AddId "c") Hr)).
    exists 3%Z. split; [vm_compute; tauto | reflexivity].
  - apply (proj2 (order_error_when_rank_lower _ (AddAttribute "d") Hr)).
    + vm_compute. repeat constructor; discriminate.
    + vm_compute. repeat constructor; discriminate.
Defined.

(** ** Fragments that occur at most once *)

(** C3, as stated, fails: an element set to the empty string counts as not
    set, so a second [element] call goes through. *)
Lemma empty_element_can_be_set_again :
  outcome (Builder.element "" Builder.constructor) = inr tt /\
  outcome (Builder.element "div"
             (state_after (Builder.element "" Builder.constructor))) = inr tt /\
  Builder.elem (state_after (Builder.element "" Builder.constructor)) = "".
Proof. repeat split. Qed.

(** The state after the first of two calls, and the check of the second. *)
Ltac second_call c1 c2 b :=
  let Hs := fresh "Hs" in
  let Ho := fresh "Ho" in
  pose proof (state_after_invoke c1 b) as Hs;
  pose proof (outcome_invoke c2 (state_after (invoke c1 b))) as Ho;
  cbn [invoke] in Hs, Ho; rewrite Ho; clear Ho;
  cbn [already_set] in *; rewrite Hs; clear Hs.

(** C3, amended. On every builder and for all strings [v1], [v2]: the
    second of two [element] calls raises the duplicate error exactly when
    the element is set (non-empty) after the first, that is when the
    builder already had one or [v1] is not empty; the second of two [id]
    calls, and of two [pseudoElement] calls, always raises it. *)
Theorem second_single_fragment_call (b : Builder.t) (v1 v2 : string) :
  (outcome (Builder.element v2 (state_after (Builder.element v1 b)))
     = inl DuplicateFragmentError
   <-> Builder.elem b <> "" \/ v1 <> "")
  /\ outcome (Builder.id v2 (state_after (Builder.id v1 b)))
     = inl DuplicateFragmentError
  /\ outcome (Builder.pseudoElement v2 (state_after (Builder.pseudoElement v1 b)))
     = inl DuplicateFragmentError.
Proof.
  split; [|split].
  - second_call (AddElement v1) (AddElement v2) b.
    destruct (negb (String.eqb (Builder.elem b) "")) eqn:Hb.
    + rewrite Hb. apply eqb_nil_false in Hb. split; auto.
    + apply not_set_empty in Hb.
      unfold applied. cbn [Builder.elem Builder.set_elem Builder.set_order].
      destruct (negb (String.eqb v1 "")) eqn:Hv.
      * apply eqb_nil_false in Hv. split; auto.
      * apply not_set_empty in Hv. split.
        -- destruct (order_scan _ _) as [e|m] eqn:Hscan; [|discriminate].
           apply order_scan_error in Hscan. subst e. discriminate.
        -- intros [H | H]; contradiction.
  - second_call (AddId v1) (AddId v2) b.
    destruct (negb (String.eqb (Builder.idTag b) "")) eqn:Hb;
      [rewrite Hb|]; reflexivity.
  - second_call (AddPseudoElement v1) (AddPseudoElement v2) b.
    destruct (negb (String.eqb (Builder.pseudoElem b) "")) eqn:Hb;
      [rewrite Hb|]; reflexivity.
Qed.

(** ** Fragments that may repeat *)

(** C4. On every builder that fragment calls can produce, any number of
    [class], [attr] and [pseudoClass] calls made in valid category order
    (the ranks appended so far followed by those of the calls are
    non-decreasing) all return, equal values or not; each call adds its
    formatted value once, at the end of the list of its category, so that
    the values come out of [stringify()] in call order. *)
Theorem list_calls_never_raise (b : Builder.t) (calls : list fragment_call) :
  reachable b ->
  Forall (fun c => is_list_category (category_of c) = true) calls ->
  Sorted Z.le (Builder.order b ++ map rank calls) ->
  exists b' : Builder.t,
    chain calls b = (b', inr tt) /\
    Builder.classes b' = Builder.classes b ++ fragments CatClass calls /\
    Builder.attributes b' = Builder.attributes b ++ fragments CatAttribute calls /\
    Builder.pseudoClasses b' =
      Builder.pseudoClasses b ++ fragments CatPseudoClass calls /\
    Builder.stringify b' =
      (b', inr (Builder.elem b +:+ Builder.idTag b +:+
                String.concat "" (Builder.classes b ++ fragments CatClass calls) +:+
                String.concat "" (Builder.attributes b ++ fragments CatAttribute calls) +:+
                String.concat "" (Builder.pseudoClasses b ++ fragments CatPseudoClass calls) +:+
                Builder.pseudoElem b)).
Proof.
  intros Hr Hall Hs.
  assert (exists m, order_scan 0 (Builder.order b ++ map rank calls) = inr m)
    as [m Hm].
  { apply order_scan_sorted, Sorted_nonneg_cons; [|exact Hs].
    apply List.Forall_app. split.
    - eapply List.Forall_impl; [|apply reachable_ranks, Hr]. simpl. lia.
    - apply List.Forall_forall. intros r Hin.
      apply in_map_iff in Hin as (c & <- & _).
      pose proof (rank_bounds c). lia. }
  destruct (list_chain_returns calls b m Hall Hm) as [b' Hch].
  exists b'. split; [exact Hch|].
  destruct (chain_fields calls b b' Hch) as (He & Hi & Hc & Ha & Hp & Hq).
  rewrite (fragments_other CatElement calls Hall eq_refl) in He.
  rewrite (fragments_other CatId calls Hall eq_refl) in Hi.
  rewrite (fragments_other CatPseudoElement calls Hall eq_refl) in Hq.
  cbn [String.concat] in He, Hi, Hq. rewrite append_nil_r in He, Hi, Hq.
  repeat (split; [assumption|]).
  rewrite stringify_text. unfold text. now rewrite He, Hi, Hc, Ha, Hp, Hq.
Qed.

(** [element('a')], then [class('x').class('x').attr('href').pseudoClass('hover')] *)
Lemma list_calls_never_raise_witness :
  exists b' : Builder.t,
    chain [AddClass "x"; AddClass "x"; AddAttribute "href"; AddPseudoClass "hover"]
      (run_caught [AddElement "a"] Builder.constructor) = (b', inr tt) /\
    Builder.classes b' = [".x"; ".x"] /\
    Builder.attributes b' = ["[href]"] /\
    Builder.pseudoClasses b' = [":hover"] /\
    Builder.stringify b' = (b', inr "a.x.x[href]:hover").
Proof.
  apply (list_calls_never_raise
           (run_caught [AddElement "a"] Builder.constructor)
           [AddClass "x"; AddClass "x"; AddAttribute "href"; AddPseudoClass "hover"]).
  - apply reachable_run_caught, reachable_new.
  - repeat constructor.
  - vm_compute. repeat constructor; discriminate.
Defined.

(** ** [combine] *)

(** C5. For all selectors [a] and [b] that can be rendered (references to
    a builder or to a combined value) and every symbol [s], [combine]
    returns a value that can be rendered, and its [stringify()] is that of
    [a], a space, [s], a space, that of [b], whatever the symbol. *)
Theorem combine_renders_with_spaces (h : heap) (a b : loc) (s : string) :
  is_Some (h !! a) -> is_Some (h !! b) ->
  exists (ra rb : string) (c : loc) (h' : heap),
    stringify a h = (h, inr ra) /\
    stringify b h = (h, inr rb) /\
    cssSelectorBuilder.combine a s b h = (h', inr c) /\
    stringify c h' = (h', inr (ra +:+ " " +:+ s +:+ " " +:+ rb)).
Proof.
  intros [oa Ha] [ob Hb].
  assert (exists ra, stringify a h = (h, inr ra)) as [ra Hra].
  { rewrite stringify_heap, Ha. destruct oa; eauto. }
  assert (exists rb, stringify b h = (h, inr rb)) as [rb Hrb].
  { rewrite stringify_heap, Hb. destruct ob; eauto. }
  exists ra, rb, (fresh (dom h)),
    (<[fresh (dom h) := OCombined (ra +:+ " " +:+ s +:+ " " +:+ rb)]> h).
  split; [exact Hra|]. split; [exact Hrb|]. split.
  - rewrite combine_eq, Hra, Hrb. reflexivity.
  - rewrite stringify_heap, lookup_insert_eq. reflexivity.
Qed.

(** [combine(element('div').id('main'), '+', element('table').id('data'))] *)
Lemma combine_renders_with_spaces_witness :
  exists (ra rb : string) (c : loc) (h' : heap),
    stringify 1%positive div_and_table = (div_and_table, inr ra) /\
    stringify 2%positive div_and_table = (div_and_table, inr rb) /\
    cssSelectorBuilder.combine 1%positive "+" 2%positive div_and_table
      = (h', inr c) /\
    stringify c h' = (h', inr (ra +:+ " " +:+ "+" +:+ " " +:+ rb)).
Proof.
  apply (combine_renders_with_spaces div_and_table 1%positive 2%positive "+").
  - eexists. vm_compute. reflexivity.
  - eexists. vm_compute. reflexivity.
Defined.

Example combine_div_table :
  outcome ((c <- cssSelectorBuilder.combine 1%positive "+" 2%positive ;;
            stringify c) div_and_table)
  = inr "div#main + table#data".
Proof. vm_compute. reflexivity. Qed.

(** The nested example of the source's documentation, the innermost
    symbol being a space. *)
Example combine_documented :
  outcome
    ((a <- cssSelectorBuilder.element "div" ;;
      a <- fluent a (Builder.id "main") ;;
      a <- fluent a (Builder.class "container") ;;
      a <- fluent a (Builder.class "draggable") ;;
      b <- cssSelectorBuilder.element "table" ;;
      b <- fluent b (Builder.id "data") ;;
      c <- cssSelectorBuilder.element "tr" ;;
      c <- fluent c (Builder.pseudoClass "nth-of-type(even)") ;;
      d <- cssSelectorBuilder.element "td" ;;
      d <- fluent d (Builder.pseudoClass "nth-of-type(even)") ;;
      cd <- cssSelectorBuilder.combine c " " d ;;
      bcd <- cssSelectorBuilder.combine b "~" cd ;;
      abcd <- cssSelectorBuilder.combine a "+" bcd ;;
      stringify abcd) ∅)
  = inr "div#main.container.draggable + table#data ~ tr:nth-of-type(even)   td:nth-of-type(even)".
Proof. vm_compute. reflexivity. Qed.

(** ** Mutation comes before the order check *)

(** C6. When a call on a list category (class, attribute, pseudo-class)
    raises the order error, the formatted value has already been pushed:
    after the error it is in the corresponding list of the builder, as
    its last element, and the rank has been recorded as well. *)
Theorem list_mutation_precedes_order_error (b : Builder.t) (c : fragment_call) :
  is_list_category (category_of c) = true ->
  outcome (invoke c b) = inl OrderViolationError ->
  list_field (category_of c) (state_after (invoke c b))
    = list_field (category_of c) b ++ [formatted c]
  /\ In (formatted c) (list_field (category_of c) (state_after (invoke c b)))
  /\ Builder.order (state_after (invoke c b)) = Builder.order b ++ [rank c].
Proof.
  intros Hlist Herr.
  destruct (order_error_leaves_violation c b Herr) as (_ & -> & _).
  assert (list_field (category_of c) (applied c b)
          = list_field (category_of c) b ++ [formatted c]) as Heq
    by (destruct c; try discriminate Hlist; reflexivity).
  split; [exact Heq|]. split; [|reflexivity].
  rewrite Heq. apply in_or_app. right. now left.
Qed.

(** [attr('href')], then [class('btn')], which raises. *)
Lemma list_mutation_precedes_order_error_witness :
  outcome (invoke (AddClass "btn")
             (run_caught [AddAttribute "href"] Builder.constructor))
    = inl OrderViolationError /\
  Builder.classes
    (state_after (invoke (AddClass "btn")
                    (run_caught [AddAttribute "href"] Builder.constructor)))
    = [".btn"].
Proof.
  split; [reflexivity|].
  exact (proj1 (list_mutation_precedes_order_error
                  (run_caught [AddAttribute "href"] Builder.constructor)
                  (AddClass "btn") eq_refl eq_refl)).
Defined.

(** ** The combined value is a snapshot *)

(** C7. The value returned by [combine] holds the two renderings made
    when [combine] was called: whatever fragment calls are made afterwards
    on the operands, or on any other reference, returning or raising, the
    [stringify()] of the combined value stays the string built from the
    renderings of that time. *)
Theorem combined_value_is_a_snapshot (h h' : heap) (a b c : loc) (s : string) :
  cssSelectorBuilder.combine a s b h = (h', inr c) ->
  exists ra rb : string,
    stringify a h = (h, inr ra) /\
    stringify b h = (h, inr rb) /\
    forall calls : list (loc * fragment_call),
      stringify c (heap_run_caught calls h')
      = (heap_run_caught calls h', inr (ra +:+ " " +:+ s +:+ " " +:+ rb)).
Proof.
  rewrite combine_eq.
  destruct (outcome (stringify a h)) as [e|ra] eqn:Ha; [discriminate|].
  destruct (outcome (stringify b h)) as [e|rb] eqn:Hb; [discriminate|].
  intros [= <- <-]. exists ra, rb.
  split; [rewrite stringify_heap in Ha |- *; unfold outcome in Ha; simpl in Ha;
          now rewrite Ha|].
  split; [rewrite stringify_heap in Hb |- *; unfold outcome in Hb; simpl in Hb;
          now rewrite Hb|].
  intros calls. rewrite stringify_heap.
  erewrite heap_run_keeps_combined; [reflexivity|].
  apply lookup_insert_eq.
Qed.

(** After [c = combine(div, '>', p)], the calls [div.class('x')] and
    [p.id('y')] change what the operands render, not what [c] renders. *)
Lemma combined_value_is_a_snapshot_witness :
  (exists ra rb : string,
     stringify 1%positive div_and_p = (div_and_p, inr ra) /\
     stringify 2%positive div_and_p = (div_and_p, inr rb) /\
     forall calls : list (loc * fragment_call),
       stringify 3%positive (heap_run_caught calls div_child_p)
       = (heap_run_caught calls div_child_p,
          inr (ra +:+ " " +:+ ">" +:+ " " +:+ rb))) /\
  outcome (stringify 1%positive
             (heap_run_caught [(1%positive, AddClass "x"); (2%positive, AddId "y")]
                div_child_p)) = inr "div.x" /\
  outcome (stringify 2%positive
             (heap_run_caught [(1%positive, AddClass "x"); (2%positive, AddId "y")]
                div_child_p)) = inr "p#y" /\
  outcome (stringify 3%positive
             (heap_run_caught [(1%positive, AddClass "x"); (2%positive, AddId "y")]
                div_child_p)) = inr "div > p".
Proof.
  split.
  - apply (combined_value_is_a_snapshot div_and_p div_child_p
             1%positive 2%positive 3%positive ">").
    vm_compute. reflexivity.
  - repeat split; vm_compute; reflexivity.
Defined.

(** ** Rendering has no effect *)

(** C8. Whatever the state of the builder, [stringify()] returns without
    raising and leaves the builder as it was: any number of successive
    calls all return the same string and every field keeps its value.
    The states reachable by fragment calls are among those covered. *)
Theorem stringify_is_pure (b : Builder.t) :
  exists s : string,
    forall n : nat,
      repeat_call n Builder.stringify b = (b, inr (replicate n s)).
Proof.
  exists (text b). induction n as [|n IH]; [reflexivity|].
  cbn [repeat_call]. unfold bind at 1. rewrite stringify_text.
  unfold bind at 1. rewrite IH. reflexivity.
Qed.

(** ** After an order error *)

(** C10, as stated, fails: after an order error, a call of a fragment that
    occurs at most once and is already set raises the duplicate error.
    Here [class('a')], then [element('div')] which raises the order error,
    then [element('p')]. *)
Lemma duplicate_error_after_order_error :
  outcome (invoke (AddElement "div")
             (run_caught [AddClass "a"] Builder.constructor))
    = inl OrderViolationError /\
  outcome (invoke (AddElement "p")
             (run_caught [AddClass "a"; AddElement "div"] Builder.constructor))
    = inl DuplicateFragmentError /\
  DuplicateFragmentError <> OrderViolationError.
Proof. repeat split. discriminate. Qed.

(** C10, amended. Once a fragment call has raised the order error, every
    later fragment call on that builder raises an error, whatever its
    rank and whatever calls were made in between: the duplicate error
    when the call is [element], [id] or [pseudoElement] and that fragment
    is already set, the order error in every other case. *)
Theorem every_call_raises_after_order_error
  (b0 : Builder.t) (c0 : fragment_call) (calls : list fragment_call)
  (c : fragment_call) :
  outcome (invoke c0 b0) = inl OrderViolationError ->
  outcome (invoke c (run_caught calls (state_after (invoke c0 b0)))) =
  if already_set c (run_caught calls (state_after (invoke c0 b0)))
  then inl DuplicateFragmentError
  else inl OrderViolationError.
Proof.
  intros Herr.
  destruct (order_error_leaves_violation c0 b0 Herr) as (_ & Hst & Hv).
  rewrite <- Hst in Hv.
  pose proof (violation_persists_run calls _ _ Hv) as Hb.
  rewrite outcome_invoke. destruct (already_set c _); [reflexivity|].
  now rewrite order_scan_app, Hb.
Qed.

(** [class('a')], [element('div')] which raises, [attr('x')] which raises,
    then [pseudoElement('after')]. *)
Lemma every_call_raises_after_order_error_witness :
  outcome (invoke (AddElement "div")
             (run_caught [AddClass "a"] Builder.constructor))
    = inl OrderViolationError /\
  outcome (invoke (AddPseudoElement "after")
             (run_caught [AddClass "a"; AddElement "div"; AddAttribute "x"]
                Builder.constructor))
    = inl OrderViolationError.
Proof.
  split; [reflexivity|].
  exact (every_call_raises_after_order_error
           (run_caught [AddClass "a"] Builder.constructor) (AddElement "div")
           [AddAttribute "x"] (AddPseudoElement "after") eq_refl).
Defined.

(** * Further properties of the builder *)

(** ** The order check on its own *)

Lemma last_cons_default (l : list Z) (a d d' : Z) :
  List.last (a :: l) d = List.last (a :: l) d'.
Proof.
  revert a. induction l as [|x l IH]; intros a; [reflexivity|].
  change (List.last (x :: l) d = List.last (x :: l) d'). apply IH.
Qed.

Lemma order_scan_last (l : list Z) (res m : Z) :
  order_scan res l = inr m -> m = List.last l res.
Proof.
  revert res. induction l as [|val l IH]; intros res; simpl order_scan.
  - now intros [= <-].
  - destruct (val >=? res)%Z; [|discriminate].
    intros H. apply IH in H. subst m.
    destruct l as [|x l]; [reflexivity|].
    change (List.last (x :: l) val = List.last (x :: l) res).
    apply last_cons_default.
Qed.

Lemma reachable_sorted_from_zero (b : Builder.t) :
  reachable b ->
  Sorted Z.le (Builder.order b) <-> Sorted Z.le (0%Z :: Builder.order b).
Proof.
  intros Hr. split.
  - apply Sorted_nonneg_cons.
    eapply List.Forall_impl; [|apply reachable_ranks, Hr]. simpl. lia.
  - intros H. now inversion H.
Qed.

(** X1. [checkOrder()] never changes the builder. On a builder that
    fragment calls can produce it returns exactly when the appended ranks
    are non-decreasing, and then returns the last of them (0 when there is
    none); otherwise it throws the order error. *)
Theorem checkOrder_returns_last_rank (b : Builder.t) :
  reachable b ->
  state_after (Builder.checkOrder b) = b /\
  (Sorted Z.le (Builder.order b) ->
   outcome (Builder.checkOrder b) = inr (List.last (Builder.order b) 0%Z)) /\
  (~ Sorted Z.le (Builder.order b) ->
   outcome (Builder.checkOrder b) = inl OrderViolationError).
Proof.
  intros Hr. rewrite checkOrder_scan. split; [reflexivity|].
  unfold outcome. cbn [snd]. split.
  - intros Hs. apply (reachable_sorted_from_zero b Hr) in Hs.
    apply order_scan_sorted in Hs as [m Hm]. rewrite Hm.
    now rewrite (order_scan_last _ _ _ Hm).
  - intros Hns.
    destruct (order_scan 0 (Builder.order b)) as [e|m] eqn:Hscan.
    + now rewrite (order_scan_error _ _ _ Hscan).
    + exfalso. apply Hns. apply (reachable_sorted_from_zero b Hr).
      apply order_scan_sorted. eauto.
Qed.

(** After [element('a').class('b')] the check returns 3; after
    [class('a')] and [id('b')], which raised, it throws. *)
Lemma checkOrder_returns_last_rank_witness :
  outcome (Builder.checkOrder
             (run_caught [AddElement "a"; AddClass "b"] Builder.constructor))
    = inr 3%Z /\
  outcome (Builder.checkOrder
             (run_caught [AddClass "a"; AddId "b"] Builder.constructor))
    = inl OrderViolationError.
Proof.
  split.
  - apply (proj1 (proj2 (checkOrder_returns_last_rank
                           (run_caught [AddElement "a"; AddClass "b"]
                              Builder.constructor)
                           (reachable_run_caught _ _ reachable_new)))).
    vm_compute. repeat constructor; discriminate.
  - apply (proj2 (proj2 (checkOrder_returns_last_rank
                           (run_caught [AddClass "a"; AddId "b"]
                              Builder.constructor)
                           (reachable_run_caught _ _ reachable_new)))).
    vm_compute. intros H. inversion H as [|? ? _ Hd]. inversion Hd as [|? ? Hle].
    apply Hle. reflexivity.
Defined.

(** ** What an exception leaves behind *)

(** X2. A call that raises the duplicate error has changed nothing: the
    builder is exactly as before the call. *)
Theorem duplicate_error_leaves_builder (b : Builder.t) (c : fragment_call) :
  outcome (invoke c b) = inl DuplicateFragmentError ->
  state_after (invoke c b) = b.
Proof.
  rewrite outcome_invoke, state_after_invoke.
  destruct (already_set c b); [reflexivity|].
  destruct (order_scan 0 (Builder.order b ++ [rank c])) as [e|m] eqn:Hscan;
    [|discriminate].
  apply order_scan_error in Hscan. subst e. discriminate.
Qed.

Lemma duplicate_error_leaves_builder_witness :
  outcome (invoke (AddId "x") (run_caught [AddId "main"] Builder.constructor))
    = inl DuplicateFragmentError /\
  state_after (invoke (AddId "x") (run_caught [AddId "main"] Builder.constructor))
    = run_caught [AddId "main"] Builder.constructor.
Proof.
  split; [reflexivity|].
  exact (duplicate_error_leaves_builder
           (run_caught [AddId "main"] Builder.constructor) (AddId "x") eq_refl).
Defined.

(** X3. When [element], [id] or [pseudoElement] raises the order error,
    the field has already been assigned the new formatted value and the
    rank has been recorded. *)
Theorem single_mutation_precedes_order_error (b : Builder.t) (c : fragment_call) :
  is_list_category (category_of c) = false ->
  outcome (invoke c b) = inl OrderViolationError ->
  single_field (category_of c) (state_after (invoke c b)) = formatted c /\
  Builder.order (state_after (invoke c b)) = Builder.order b ++ [rank c].
Proof.
  intros Hsingle Herr.
  destruct (order_error_leaves_violation c b Herr) as (_ & -> & _).
  split; [|reflexivity].
  destruct c; try discriminate Hsingle; reflexivity.
Qed.

(** [class('a')], then [element('div')], which raises. *)
Lemma single_mutation_precedes_order_error_witness :
  outcome (invoke (AddElement "div")
             (run_caught [AddClass "a"] Builder.constructor))
    = inl OrderViolationError /\
  Builder.elem (state_after (invoke (AddElement "div")
                               (run_caught [AddClass "a"] Builder.constructor)))
    = "div".
Proof.
  split; [reflexivity|].
  exact (proj1 (single_mutation_precedes_order_error
                  (run_caught [AddClass "a"] Builder.constructor)
                  (AddElement "div") eq_refl eq_refl)).
Defined.

(** ** What the fields of a builder keep *)

Lemma fragments_app (k : category) (l1 l2 : list fragment_call) :
  fragments k (l1 ++ l2) = fragments k l1 ++ fragments k l2.
Proof. unfold fragments. now rewrite filter_app, map_app. Qed.

Lemma single_field_step (k : category) (c : fragment_call) (b : Builder.t) :
  is_list_category k = false ->
  single_field k b <> "" ->
  single_field k (state_after (invoke c b)) = single_field k b.
Proof.
  intros Hk Hset. rewrite state_after_invoke.
  destruct (already_set c b) eqn:Hc; [reflexivity|].
  destruct k; try discriminate Hk; destruct c; try reflexivity;
    cbn [already_set single_field] in *;
    apply not_set_empty in Hc; contradiction.
Qed.

(** X4. Once the element, the id or the pseudo-element of a builder is set
    (non-empty), no sequence of fragment calls changes it, whether the
    calls return or raise. *)
Theorem single_field_set_once
  (k : category) (b : Builder.t) (calls : list fragment_call) :
  is_list_category k = false ->
  single_field k b <> "" ->
  single_field k (run_caught calls b) = single_field k b.
Proof.
  intros Hk. revert b. induction calls as [|c calls IH]; intros b Hset;
    [reflexivity|].
  cbn [run_caught]. rewrite IH; rewrite (single_field_step k c b Hk Hset);
    [reflexivity | exact Hset].
Qed.

(** After [id('main')]: [id('x')], [class('y')], [element('p')], [id('z')]. *)
Lemma single_field_set_once_witness :
  Builder.idTag
    (run_caught [AddId "x"; AddClass "y"; AddElement "p"; AddId "z"]
       (run_caught [AddId "main"] Builder.constructor))
  = "#main".
Proof.
  apply (single_field_set_once CatId
           (run_caught [AddId "main"] Builder.constructor)
           [AddId "x"; AddClass "y"; AddElement "p"; AddId "z"]).
  - reflexivity.
  - vm_compute. discriminate.
Defined.

Lemma list_field_step (k : category) (c : fragment_call) (b : Builder.t) :
  is_list_category k = true ->
  list_field k (state_after (invoke c b)) = list_field k b ++ fragments k [c].
Proof.
  intros Hk. rewrite state_after_invoke, fragments_cons.
  destruct k; try discriminate Hk; destruct c;
    cbn [already_set category_of]; try destruct (negb _);
    case_decide; try (exfalso; congruence);
    cbn [fragments filter map]; rewrite ?app_nil_r; reflexivity.
Qed.

(** X5. Every [class], [attr] and [pseudoClass] call appends its formatted
    value to the list of its category, whether it returns or raises, and
    no call removes or reorders anything: after any sequence of calls a
    list is what it was, followed by the formatted values of the calls of
    its category in call order. *)
Theorem list_calls_always_append
  (k : category) (b : Builder.t) (calls : list fragment_call) :
  is_list_category k = true ->
  list_field k (run_caught calls b) = list_field k b ++ fragments k calls.
Proof.
  intros Hk. revert b. induction calls as [|c calls IH]; intros b.
  - cbn [run_caught fragments filter map]. now rewrite app_nil_r.
  - cbn [run_caught]. rewrite IH, (list_field_step k c b Hk), <- app_assoc.
    f_equal. symmetry. apply (fragments_app k [c] calls).
Qed.

(** [attr('x')], then [class('a')] which raises, then [class('a')] again. *)
Lemma list_calls_always_append_witness :
  Builder.classes
    (run_caught [AddAttribute "x"; AddClass "a"; AddClass "a"] Builder.constructor)
  = [".a"; ".a"].
Proof.
  exact (list_calls_always_append CatClass Builder.constructor
           [AddAttribute "x"; AddClass "a"; AddClass "a"] eq_refl).
Defined.

Lemma count_occ_snoc (l : list Z) (x a : Z) :
  count_occ Z.eq_dec (l ++ [x]) a
  = count_occ Z.eq_dec l a + (if Z.eq_dec x a then 1 else 0).
Proof.
  rewrite count_occ_app. cbn [count_occ]. now destruct (Z.eq_dec x a).
Qed.

(** X6. The rank sequence of a builder counts what its fields hold. On
    every builder that fragment calls can produce, returning or raising:
    the ranks are among 1..6; rank 3, 4 and 5 occur as many times as there
    are classes, attributes and pseudo-classes; rank 2 and rank 6 occur
    once when the id, respectively the pseudo-element, is set and not at
    all otherwise; and a set element comes with a rank 1. *)
Theorem order_counts_fields (b : Builder.t) :
  reachable b ->
  Forall (fun r => (1 <= r <= 6)%Z) (Builder.order b) /\
  count_occ Z.eq_dec (Builder.order b) 3%Z = length (Builder.classes b) /\
  count_occ Z.eq_dec (Builder.order b) 4%Z = length (Builder.attributes b) /\
  count_occ Z.eq_dec (Builder.order b) 5%Z = length (Builder.pseudoClasses b) /\
  count_occ Z.eq_dec (Builder.order b) 2%Z
    = (if String.eqb (Builder.idTag b) "" then 0 else 1) /\
  count_occ Z.eq_dec (Builder.order b) 6%Z
    = (if String.eqb (Builder.pseudoElem b) "" then 0 else 1) /\
  (Builder.elem b <> "" -> In 1%Z (Builder.order b)).
Proof.
  intros Hr. split; [apply reachable_ranks, Hr|].
  induction Hr as [|b c _ (H3 & H4 & H5 & H2 & H6 & H1)].
  - repeat split. intros H. now contradiction H.
  - rewrite state_after_invoke.
    destruct (already_set c b) eqn:Hset; [tauto|].
    unfold applied.
    destruct c as [v|v|v|v|v|v];
      cbn [Builder.elem Builder.idTag Builder.classes Builder.attributes
           Builder.pseudoClasses Builder.pseudoElem Builder.order
           Builder.set_elem Builder.set_idTag Builder.set_classes
           Builder.set_attributes Builder.set_pseudoClasses
           Builder.set_pseudoElem Builder.set_order rank category_of rank_of
           already_set] in *;
      try (apply not_set_empty in Hset; rewrite Hset in *);
      rewrite ?append_cons; cbn [String.eqb] in *;
      repeat split;
      rewrite ?count_occ_snoc, ?length_app; cbn [length];
      repeat match goal with
             | |- context [Z.eq_dec ?x ?y] => destruct (Z.eq_dec x y)
             end;
      try lia;
      intros Hv; apply in_or_app; first [right; now left | left; auto].
Qed.

(** [element('a')], [class('x')], [id('m')] which raises, [class('y')] which
    raises too. *)
Lemma order_counts_fields_witness :
  count_occ Z.eq_dec
    (Builder.order
       (run_caught [AddElement "a"; AddClass "x"; AddId "m"; AddClass "y"]
          Builder.constructor)) 3%Z
  = length
      (Builder.classes
         (run_caught [AddElement "a"; AddClass "x"; AddId "m"; AddClass "y"]
            Builder.constructor)).
Proof.
  exact (proj1 (proj2 (order_counts_fields
                         (run_caught [AddElement "a"; AddClass "x"; AddId "m";
                                      AddClass "y"] Builder.constructor)
                         (reachable_run_caught _ _ reachable_new)))).
Defined.

(** X7. Every string the builder stores carries the punctuation of its
    category. On every builder that fragment calls can produce: each class
    is ["."] followed by a value, each attribute a value between ["["] and
    ["]"], each pseudo-class [":"] followed by a value; the id is empty or
    ["#"] followed by a value, the pseudo-element empty or ["::"] followed
    by a value. *)
Theorem fields_are_formatted (b : Builder.t) :
  reachable b ->
  Forall (fun s => exists v, s = "." +:+ v) (Builder.classes b) /\
  Forall (fun s => exists v, s = "[" +:+ v +:+ "]") (Builder.attributes b) /\
  Forall (fun s => exists v, s = ":" +:+ v) (Builder.pseudoClasses b) /\
  (Builder.idTag b = "" \/ exists v, Builder.idTag b = "#" +:+ v) /\
  (Builder.pseudoElem b = "" \/ exists v, Builder.pseudoElem b = "::" +:+ v).
Proof.
  induction 1 as [|b c _ (Hc & Ha & Hp & Hi & He)].
  - cbn. repeat split; try apply List.Forall_nil; now left.
  - rewrite state_after_invoke.
    destruct (already_set c b); [tauto|].
    unfold applied.
    destruct c as [v|v|v|v|v|v];
      cbn [Builder.elem Builder.idTag Builder.classes Builder.attributes
           Builder.pseudoClasses Builder.pseudoElem Builder.order
           Builder.set_elem Builder.set_idTag Builder.set_classes
           Builder.set_attributes Builder.set_pseudoClasses
           Builder.set_pseudoElem Builder.set_order];
      repeat split; try assumption;
      try (apply List.Forall_app; split; [assumption|];
           constructor; [eauto | constructor]);
      right; eauto.
Qed.

Lemma fields_are_formatted_witness :
  Forall (fun s => exists v, s = "." +:+ v)
    (Builder.classes
       (run_caught [AddAttribute "x"; AddClass "a"; AddClass "b"]
          Builder.constructor)).
Proof.
  exact (proj1 (fields_are_formatted
                  (run_caught [AddAttribute "x"; AddClass "a"; AddClass "b"]
                     Builder.constructor)
                  (reachable_run_caught _ _ reachable_new))).
Defined.

(** ** The facade and the store *)

Lemma fresh_not_in_store (h : heap) : h !! fresh (dom h) = None.
Proof. apply not_elem_of_dom, is_fresh. Qed.

Lemma first_call_returns (c : fragment_call) :
  invoke c Builder.constructor = (applied c Builder.constructor, inr tt).
Proof.
  rewrite invoke_eq.
  assert (already_set c Builder.constructor = false) as ->
    by (destruct c; reflexivity).
  now destruct c.
Qed.

Lemma text_first_call (c : fragment_call) :
  text (applied c Builder.constructor) = formatted c.
Proof.
  destruct c; unfold text, applied;
    cbn [Builder.elem Builder.idTag Builder.classes Builder.attributes
         Builder.pseudoClasses Builder.pseudoElem Builder.constructor
         Builder.set_elem Builder.set_idTag Builder.set_classes
         Builder.set_attributes Builder.set_pseudoClasses
         Builder.set_pseudoElem Builder.set_order app String.concat formatted];
    rewrite ?append_nil_l, ?append_nil_r; reflexivity.
Qed.

Lemma fluent_on_builder (h : heap) (l : loc) (b : Builder.t) (m : M Builder.t unit) :
  h !! l = Some (OBuilder b) ->
  fluent l m h =
  (<[l := OBuilder (state_after (m b))]> h,
   match outcome (m b) with inl e => inl e | inr _ => inr l end).
Proof.
  intros Hl. unfold fluent, bind, method. rewrite Hl.
  now destruct (outcome (m b)).
Qed.

Lemma facade_eq (h : heap) (c : fragment_call) :
  facade c h =
  (<[fresh (dom h) := OBuilder (applied c Builder.constructor)]> h,
   inr (fresh (dom h))).
Proof.
  assert ((this <- new_Builder ;; fluent this (invoke c)) h =
          (<[fresh (dom h) := OBuilder (applied c Builder.constructor)]> h,
           inr (fresh (dom h)))) as Heq.
  { unfold bind at 1. unfold new_Builder, alloc. cbv zeta.
    rewrite (fluent_on_builder _ _ Builder.constructor)
      by apply lookup_insert_eq.
    rewrite first_call_returns. unfold state_after, outcome. cbn [fst snd].
    now rewrite insert_insert_eq. }
  destruct c; exact Heq.
Qed.

Lemma fluent_chain_eq (calls : list fragment_call) (h : heap) (l : loc) (b : Builder.t) :
  h !! l = Some (OBuilder b) ->
  fluent_chain l calls h =
  (<[l := OBuilder (state_after (chain calls b))]> h,
   match outcome (chain calls b) with inl e => inl e | inr _ => inr l end).
Proof.
  revert h b. induction calls as [|c calls IH]; intros h b Hl.
  - cbn. unfold ret. now rewrite insert_id.
  - cbn [fluent_chain chain]. unfold bind.
    rewrite (fluent_on_builder h l b (invoke c) Hl).
    destruct (invoke c b) as [b1 [e|[]]] eqn:Hinv;
      unfold state_after, outcome; cbn [fst snd]; [reflexivity|].
    rewrite (IH _ b1) by apply lookup_insert_eq.
    now rewrite insert_insert_eq.
Qed.

(** X8. An entry point of the facade never raises, whatever the value: in
    any store it creates one builder at a reference that was not in use,
    leaves every object of the store as it was, and returns that
    reference; the builder renders the formatted fragment and has recorded
    the rank of the call. *)
Theorem facade_returns_fresh_builder (h : heap) (c : fragment_call) :
  exists (l : loc) (b : Builder.t),
    h !! l = None /\
    facade c h = (<[l := OBuilder b]> h, inr l) /\
    (forall l', l' <> l -> (<[l := OBuilder b]> h) !! l' = h !! l') /\
    Builder.stringify b = (b, inr (formatted c)) /\
    Builder.order b = [rank c].
Proof.
  exists (fresh (dom h)), (applied c Builder.constructor).
  split; [apply fresh_not_in_store|]. split; [apply facade_eq|].
  split; [intros l' Hne; now apply lookup_insert_ne|].
  split; [|reflexivity].
  now rewrite stringify_text, text_first_call.
Qed.

(** X9. A facade call followed by chained fragment calls that all return
    gives a reference that was not in use, leaves every other object of
    the store as it was, and [stringify()] on the reference returns the
    fragments of all the calls, the first included, category by category. *)
Theorem facade_chain_renders
  (h h' : heap) (c : fragment_call) (calls : list fragment_call) (l : loc) :
  (this <- facade c ;; fluent_chain this calls) h = (h', inr l) ->
  h !! l = None /\
  (forall l', l' <> l -> h' !! l' = h !! l') /\
  stringify l h' = (h', inr (rendered (c :: calls))).
Proof.
  unfold bind at 1. rewrite facade_eq.
  rewrite (fluent_chain_eq calls _ _ (applied c Builder.constructor))
    by apply lookup_insert_eq.
  rewrite insert_insert_eq.
  destruct (chain calls (applied c Builder.constructor)) as [b' [e|[]]] eqn:Hch;
    unfold state_after, outcome; cbn [fst snd]; [discriminate|].
  intros [= <- <-].
  split; [apply fresh_not_in_store|].
  split; [intros l' Hne; now apply lookup_insert_ne|].
  rewrite stringify_heap, lookup_insert_eq. do 2 f_equal.
  apply text_of_chain. cbn [chain]. unfold bind.
  now rewrite first_call_returns.
Qed.

(** [cssSelectorBuilder.id('main').class('container').class('editable')]
    in the store that holds a [div] and a [p] already. *)
Lemma facade_chain_renders_witness :
  stringify 3%positive
    (state_after ((this <- facade (AddId "main") ;;
                   fluent_chain this [AddClass "container"; AddClass "editable"])
                    div_and_p))
  = (state_after ((this <- facade (AddId "main") ;;
                   fluent_chain this [AddClass "container"; AddClass "editable"])
                    div_and_p),
     inr "#main.container.editable").
Proof.
  apply (facade_chain_renders div_and_p _ (AddId "main")
           [AddClass "container"; AddClass "editable"] 3%positive).
  vm_compute. reflexivity.
Defined.

(** ** [combine] and the store *)

(** X10. When [combine] returns, its result is at a reference that was not
    in use, and every object the store held, the two operands included, is
    as it was. *)
Theorem combine_keeps_the_store (h h' : heap) (a b c : loc) (s : string) :
  cssSelectorBuilder.combine a s b h = (h', inr c) ->
  h !! c = None /\
  (forall l, l <> c -> h' !! l = h !! l) /\
  h' !! a = h !! a /\ h' !! b = h !! b.
Proof.
  rewrite combine_eq, !stringify_heap. unfold outcome. cbn [snd].
  destruct (h !! a) as [oa|] eqn:Ha;
    [|destruct (h !! b) as [[]|]; discriminate].
  destruct (h !! b) as [ob|] eqn:Hb; [|destruct oa; discriminate].
  pose proof (fresh_not_in_store h) as Hfresh.
  destruct oa, ob; intros [= <- <-];
    (split; [exact Hfresh|]);
    (split; [intros l Hne; now apply lookup_insert_ne|]);
    split; rewrite lookup_insert_ne; congruence.
Qed.

Lemma combine_keeps_the_store_witness :
  div_and_table !! 3%positive = None /\
  state_after (cssSelectorBuilder.combine 1%positive "+" 2%positive div_and_table)
    !! 1%positive = div_and_table !! 1%positive /\
  state_after (cssSelectorBuilder.combine 1%positive "+" 2%positive div_and_table)
    !! 2%positive = div_and_table !! 2%positive.
Proof.
  destruct (combine_keeps_the_store div_and_table
              (state_after (cssSelectorBuilder.combine 1%positive "+" 2%positive
                              div_and_table))
              1%positive 2%positive 3%positive "+")
    as (Hc & _ & Ha & Hb).
  - vm_compute. reflexivity.
  - exact (conj Hc (conj Ha Hb)).
Defined.

Lemma combine_on_rendered (h : heap) (a b : loc) (s ra rb : string) :
  stringify a h = (h, inr ra) ->
  stringify b h = (h, inr rb) ->
  cssSelectorBuilder.combine a s b h =
  (<[fresh (dom h) := OCombined (ra +:+ " " +:+ s +:+ " " +:+ rb)]> h,
   inr (fresh (dom h))).
Proof. intros Ha Hb. now rewrite combine_eq, Ha, Hb. Qed.

Lemma stringify_after_alloc (h : heap) (l : loc) (o : object) (r : string) :
  stringify l h = (h, inr r) ->
  stringify l (<[fresh (dom h) := o]> h) = (<[fresh (dom h) := o]> h, inr r).
Proof.
  rewrite !stringify_heap. intros [= Hr].
  assert (l <> fresh (dom h)) as Hne.
  { intros ->. rewrite fresh_not_in_store in Hr. discriminate. }
  rewrite lookup_insert_ne by congruence. now rewrite Hr.
Qed.

Lemma stringify_live (h : heap) (l : loc) :
  is_Some (h !! l) -> exists r, stringify l h = (h, inr r).
Proof.
  intros [o Hl]. rewrite stringify_heap, Hl. destruct o; eauto.
Qed.

(** X11. Nesting [combine] to the left or to the right renders the same
    string: for selectors [a], [b], [c] that can be rendered,
    [combine(combine(a, s, b), t, c)] and [combine(a, s, combine(b, t, c))]
    both render [a], [s], [b], [t], [c] with one space on each side of the
    two symbols. *)
Theorem combine_nesting_renders_alike (h : heap) (a b c : loc) (s t : string) :
  is_Some (h !! a) -> is_Some (h !! b) -> is_Some (h !! c) ->
  exists ra rb rc : string,
    stringify a h = (h, inr ra) /\
    stringify b h = (h, inr rb) /\
    stringify c h = (h, inr rc) /\
    outcome ((ab <- cssSelectorBuilder.combine a s b ;;
              abc <- cssSelectorBuilder.combine ab t c ;;
              stringify abc) h)
      = inr (ra +:+ " " +:+ s +:+ " " +:+ rb +:+ " " +:+ t +:+ " " +:+ rc) /\
    outcome ((bc <- cssSelectorBuilder.combine b t c ;;
              abc <- cssSelectorBuilder.combine a s bc ;;
              stringify abc) h)
      = inr (ra +:+ " " +:+ s +:+ " " +:+ rb +:+ " " +:+ t +:+ " " +:+ rc).
Proof.
  intros Ha Hb Hc.
  destruct (stringify_live h a Ha) as [ra Hra].
  destruct (stringify_live h b Hb) as [rb Hrb].
  destruct (stringify_live h c Hc) as [rc Hrc].
  exists ra, rb, rc. split; [exact Hra|]. split; [exact Hrb|].
  split; [exact Hrc|]. split.
  - unfold bind at 1. rewrite (combine_on_rendered h a b s ra rb Hra Hrb).
    set (h1 := <[fresh (dom h) := _]> h).
    assert (stringify (fresh (dom h)) h1 =
            (h1, inr (ra +:+ " " +:+ s +:+ " " +:+ rb))) as Hab
      by (unfold h1; now rewrite stringify_heap, lookup_insert_eq).
    pose proof (stringify_after_alloc h c
                  (OCombined (ra +:+ " " +:+ s +:+ " " +:+ rb)) rc Hrc) as Hc1.
    fold h1 in Hc1.
    unfold bind at 1. rewrite (combine_on_rendered h1 _ c t _ rc Hab Hc1).
    rewrite stringify_heap, lookup_insert_eq. unfold outcome. cbn [snd].
    now rewrite !append_assoc.
  - unfold bind at 1. rewrite (combine_on_rendered h b c t rb rc Hrb Hrc).
    set (h1 := <[fresh (dom h) := _]> h).
    assert (stringify (fresh (dom h)) h1 =
            (h1, inr (rb +:+ " " +:+ t +:+ " " +:+ rc))) as Hbc
      by (unfold h1; now rewrite stringify_heap, lookup_insert_eq).
    pose proof (stringify_after_alloc h a
                  (OCombined (rb +:+ " " +:+ t +:+ " " +:+ rc)) ra Hra) as Ha1.
    fold h1 in Ha1.
    unfold bind at 1. rewrite (combine_on_rendered h1 a _ s ra _ Ha1 Hbc).
    rewrite stringify_heap, lookup_insert_eq. reflexivity.
Qed.

Lemma combine_nesting_renders_alike_witness :
  exists ra rb rc : string,
    stringify 1%positive div_child_p = (div_child_p, inr ra) /\
    stringify 2%positive div_child_p = (div_child_p, inr rb) /\
    stringify 3%positive div_child_p = (div_child_p, inr rc) /\
    outcome ((ab <- cssSelectorBuilder.combine 1%positive "~" 2%positive ;;
              abc <- cssSelectorBuilder.combine ab "+" 3%positive ;;
              stringify abc) div_child_p)
      = inr (ra +:+ " " +:+ "~" +:+ " " +:+ rb +:+ " " +:+ "+" +:+ " " +:+ rc) /\
    outcome ((bc <- cssSelectorBuilder.combine 2%positive "+" 3%positive ;;
              abc <- cssSelectorBuilder.combine 1%positive "~" bc ;;
              stringify abc) div_child_p)
      = inr (ra +:+ " " +:+ "~" +:+ " " +:+ rb +:+ " " +:+ "+" +:+ " " +:+ rc).
Proof.
  apply (combine_nesting_renders_alike div_child_p
           1%positive 2%positive 3%positive "~" "+");
    eexists; vm_compute; reflexivity.
Defined.

(** ** [isAlreadyDefined] on the list categories *)

Lemma length_append (s t : string) :
  String.length (s +:+ t) = String.length s + String.length t.
Proof.
  induction s as [|a s IH]; [reflexivity|].
  rewrite append_cons. cbn [String.length]. now rewrite IH.
Qed.

Lemma longer_differs (v s t : string) :
  0 < String.length s + String.length t -> v <> s +:+ v +:+ t.
Proof.
  intros Hlen Heq. apply (f_equal String.length) in Heq.
  rewrite !length_append in Heq. lia.
Qed.

Lemma includes_push (l : list string) (x y : string) :
  includes (l ++ [y]) (Some x) = includes l (Some x) || String.eqb x y.
Proof. cbn [includes]. rewrite existsb_app. cbn [existsb]. now rewrite orb_false_r. Qed.

Lemma isAlreadyDefined_class (b : Builder.t) (value : option string) :
  Builder.isAlreadyDefined "class" value b
  = (b, inr (includes (Builder.classes b) value)).
Proof. reflexivity. Qed.

Lemma isAlreadyDefined_attr (b : Builder.t) (value : option string) :
  Builder.isAlreadyDefined "attr" value b
  = (b, inr (includes (Builder.attributes b) value)).
Proof. reflexivity. Qed.

Lemma isAlreadyDefined_pseudoClass (b : Builder.t) (value : option string) :
  Builder.isAlreadyDefined "pseudoClass" value b
  = (b, inr (includes (Builder.pseudoClasses b) value)).
Proof. reflexivity. Qed.

(** X12. For the list categories [isAlreadyDefined] compares its argument
    with the stored, formatted strings. Right after [class(v)] the value
    is found under its formatted form [".v"], while the answer for [v]
    itself is what it was before the call; likewise for [attr] and
    [pseudoClass]. *)
Theorem isAlreadyDefined_compares_stored_strings (b : Builder.t) (v : string) :
  (outcome (Builder.isAlreadyDefined "class" (Some ("." +:+ v))
              (state_after (Builder.class v b))) = inr true /\
   outcome (Builder.isAlreadyDefined "class" (Some v)
              (state_after (Builder.class v b)))
   = outcome (Builder.isAlreadyDefined "class" (Some v) b)) /\
  (outcome (Builder.isAlreadyDefined "attr" (Some ("[" +:+ v +:+ "]"))
              (state_after (Builder.attr v b))) = inr true /\
   outcome (Builder.isAlreadyDefined "attr" (Some v)
              (state_after (Builder.attr v b)))
   = outcome (Builder.isAlreadyDefined "attr" (Some v) b)) /\
  (outcome (Builder.isAlreadyDefined "pseudoClass" (Some (":" +:+ v))
              (state_after (Builder.pseudoClass v b))) = inr true /\
   outcome (Builder.isAlreadyDefined "pseudoClass" (Some v)
              (state_after (Builder.pseudoClass v b)))
   = outcome (Builder.isAlreadyDefined "pseudoClass" (Some v) b)).
Proof.
  pose proof (state_after_invoke (AddClass v) b) as Hc.
  pose proof (state_after_invoke (AddAttribute v) b) as Ha.
  pose proof (state_after_invoke (AddPseudoClass v) b) as Hp.
  cbn [invoke already_set] in Hc, Ha, Hp. rewrite Hc, Ha, Hp.
  rewrite !isAlreadyDefined_class, !isAlreadyDefined_attr,
    !isAlreadyDefined_pseudoClass.
  unfold outcome, applied.
  cbn [snd Builder.classes Builder.attributes Builder.pseudoClasses
       Builder.set_classes Builder.set_attributes Builder.set_pseudoClasses
       Builder.set_order].
  rewrite !includes_push, !String.eqb_refl, !orb_true_r.
  assert (String.eqb v ("." +:+ v) = false) as ->.
  { apply String.eqb_neq. rewrite <- (append_nil_r v) at 2.
    rewrite <- append_assoc, append_assoc. apply longer_differs. cbn. lia. }
  assert (String.eqb v ("[" +:+ v +:+ "]") = false) as ->.
  { apply String.eqb_neq. apply longer_differs. cbn. lia. }
  assert (String.eqb v (":" +:+ v) = false) as ->.
  { apply String.eqb_neq. rewrite <- (append_nil_r v) at 2.
    rewrite <- append_assoc, append_assoc. apply longer_differs. cbn. lia. }
  rewrite !orb_false_r. repeat split.
Qed.

(** ** The chains a builder lets through *)

Lemma chain_cons_iff (c : fragment_call) (calls : list fragment_call) (b : Builder.t) :
  (exists b', chain (c :: calls) b = (b', inr tt)) <->
  already_set c b = false /\
  (exists m, order_scan 0 (Builder.order b ++ [rank c]) = inr m) /\
  (exists b', chain calls (applied c b) = (b', inr tt)).
Proof.
  cbn [chain]. unfold bind. rewrite invoke_eq.
  destruct (already_set c b).
  - split; [intros [b' H]; discriminate | intros [H _]; discriminate].
  - destruct (order_scan 0 (Builder.order b ++ [rank c])) as [e|m].
    + split; [intros [b' H]; discriminate | intros (_ & [m H] & _); discriminate].
    + split; [intros H; eauto | intros (_ & _ & H); exact H].
Qed.

Lemma chain_order (calls : list fragment_call) (b b' : Builder.t) :
  chain calls b = (b', inr tt) ->
  Builder.order b' = Builder.order b ++ map rank calls.
Proof.
  revert b. induction calls as [|c calls IH]; intros b Hch.
  - injection Hch as <-. cbn [map]. now rewrite app_nil_r.
  - apply chain_cons_ok in Hch as [_ Hch]. rewrite (IH _ Hch), order_applied.
    now rewrite <- app_assoc.
Qed.

Lemma chain_scan (calls : list fragment_call) (b b' : Builder.t) :
  calls <> [] ->
  chain calls b = (b', inr tt) ->
  exists m, order_scan 0 (Builder.order b ++ map rank calls) = inr m.
Proof.
  revert b. induction calls as [|c calls IH]; intros b Hne Hch; [contradiction|].
  assert (exists b1, chain (c :: calls) b = (b1, inr tt)) as Hex by eauto.
  apply chain_cons_iff in Hex as (_ & [m Hm] & [b1 Hb1]).
  destruct calls as [|c' calls]; [exists m; exact Hm|].
  destruct (IH (applied c b)) as [m' Hm']; [discriminate | |].
  - apply chain_cons_ok in Hch as [_ Hch]. exact Hch.
  - exists m'. rewrite order_applied, <- app_assoc in Hm'. exact Hm'.
Qed.

(** X13. A call that returns vouches for the whole history of the builder:
    when a non-empty chain of calls returns, on any builder, the ranks
    recorded afterwards are those recorded before followed by one rank per
    call, in call order, and the whole sequence is non-decreasing. *)
Theorem returned_chain_is_ordered
  (calls : list fragment_call) (b b' : Builder.t) :
  calls <> [] ->
  chain calls b = (b', inr tt) ->
  Builder.order b' = Builder.order b ++ map rank calls /\
  Sorted Z.le (Builder.order b').
Proof.
  intros Hne Hch. pose proof (chain_order calls b b' Hch) as Ho.
  split; [exact Ho|]. rewrite Ho.
  destruct (chain_scan calls b b' Hne Hch) as [m Hm].
  assert (Sorted Z.le (0%Z :: Builder.order b ++ map rank calls)) as Hs
    by (apply order_scan_sorted; eauto).
  now inversion Hs.
Qed.

Lemma returned_chain_is_ordered_witness :
  Builder.order
    (run_caught [AddElement "a"; AddClass "b"; AddClass "c"; AddPseudoElement "d"]
       Builder.constructor)
  = [1; 3; 3; 6]%Z /\
  Sorted Z.le
    (Builder.order
       (run_caught [AddElement "a"; AddClass "b"; AddClass "c"; AddPseudoElement "d"]
          Builder.constructor)).
Proof.
  apply (returned_chain_is_ordered
           [AddElement "a"; AddClass "b"; AddClass "c"; AddPseudoElement "d"]
           Builder.constructor).
  - discriminate.
  - reflexivity.
Defined.

Lemma empty_or_not (s : string) : s = "" \/ s <> "".
Proof. destruct (String.eqb_spec s ""); auto. Qed.

Lemma guard_iff (s x : string) (l : list string) :
  (s <> "" -> x :: l = []) <-> negb (String.eqb s "") = false.
Proof.
  split.
  - intros H. destruct (String.eqb_spec s "") as [|Hne]; [reflexivity|].
    specialize (H Hne). discriminate.
  - intros H Hne. apply not_set_empty in H. contradiction.
Qed.

Lemma removelast_cons_empty (v : string) (fr : list string) :
  Forall (fun s => s = "") (removelast (v :: fr)) <->
  (v <> "" -> fr = []) /\ Forall (fun s => s = "") (removelast fr).
Proof.
  destruct fr as [|x fr].
  - cbn. split; [intros _; split; [auto | constructor] | intros _; constructor].
  - change (removelast (v :: x :: fr)) with (v :: removelast (x :: fr)). split.
    + intros H. inversion H; subst. split; [intros Hne; contradiction | assumption].
    + intros [Hv Hall]. constructor; [|assumption].
      destruct (empty_or_not v) as [|Hne]; [assumption|].
      specialize (Hv Hne). discriminate.
Qed.

Lemma once_iff (x : string) (fr : list string) :
  x <> "" ->
  length (x :: fr) <= 1 <-> (x <> "" -> fr = []) /\ length fr <= 1.
Proof.
  intros Hx. destruct fr as [|y fr]; cbn [length]; split.
  - intros _. split; [auto | lia].
  - intros _. lia.
  - intros H. lia.
  - intros [H _]. specialize (H Hx). discriminate.
Qed.

Lemma sorted_prefix_scan (l1 l2 : list Z) (r : Z) :
  Sorted Z.le (0%Z :: l1 ++ r :: l2) ->
  exists m, order_scan 0 (l1 ++ [r]) = inr m.
Proof.
  intros Hs. apply order_scan_sorted in Hs as [m Hm].
  change (r :: l2) with ([r] ++ l2) in Hm.
  rewrite app_assoc, order_scan_prefix in Hm.
  destruct (order_scan 0 (l1 ++ [r])) as [e|m']; [discriminate | eauto].
Qed.

Lemma suits_cons (b : Builder.t) (c : fragment_call) (calls : list fragment_call) :
  suits b (c :: calls) <->
  already_set c b = false /\
  (exists m, order_scan 0 (Builder.order b ++ [rank c]) = inr m) /\
  suits (applied c b) calls.
Proof.
  unfold suits. rewrite order_applied, <- app_assoc.
  cbn [map app]. rewrite !fragments_cons.
  pose proof (sorted_prefix_scan (Builder.order b) (map rank calls) (rank c)) as Hscan.
  destruct c as [v|v|v|v|v|v];
    cbn [category_of already_set formatted] in *;
    repeat case_decide; try (exfalso; congruence);
    unfold applied;
    cbn [Builder.elem Builder.idTag Builder.classes Builder.attributes
         Builder.pseudoClasses Builder.pseudoElem Builder.set_elem
         Builder.set_idTag Builder.set_classes Builder.set_attributes
         Builder.set_pseudoClasses Builder.set_pseudoElem Builder.set_order].
  - rewrite removelast_cons_empty, guard_iff. tauto.
  - rewrite guard_iff, (once_iff ("#" +:+ v)) by discriminate. tauto.
  - tauto.
  - tauto.
  - tauto.
  - rewrite guard_iff, (once_iff ("::" +:+ v)) by discriminate. tauto.
Qed.

Lemma chain_returns_iff_suits (calls : list fragment_call) (b : Builder.t) :
  Sorted Z.le (0%Z :: Builder.order b) ->
  (exists b', chain calls b = (b', inr tt)) <-> suits b calls.
Proof.
  revert b. induction calls as [|c calls IH]; intros b Hs.
  - split.
    + intros _. unfold suits. cbn [map fragments filter removelast length].
      rewrite app_nil_r. repeat split; auto; constructor.
    + intros _. exists b. reflexivity.
  - rewrite chain_cons_iff, suits_cons. split.
    + intros (Hset & [m Hm] & Hch). split; [exact Hset|]. split; [eauto|].
      apply IH; [|exact Hch]. rewrite order_applied.
      apply order_scan_sorted. eauto.
    + intros (Hset & [m Hm] & Hsu). split; [exact Hset|]. split; [eauto|].
      apply IH; [|exact Hsu]. rewrite order_applied.
      apply order_scan_sorted. eauto.
Qed.

(** X14. Which chains a new builder lets through. A sequence of fragment
    calls on a new builder returns at every call exactly when the ranks of
    the calls are non-decreasing, every [element] call but the last
    carries the empty string, and [id] and [pseudoElement] are each called
    at most once. *)
Theorem new_builder_accepts (calls : list fragment_call) :
  (exists b, chain calls Builder.constructor = (b, inr tt)) <-> accepted calls.
Proof.
  rewrite chain_returns_iff_suits by (repeat constructor).
  unfold suits, accepted.
  cbn [Builder.constructor Builder.order Builder.elem Builder.idTag
       Builder.pseudoElem app].
  assert (Sorted Z.le (0%Z :: map rank calls) <-> Sorted Z.le (map rank calls))
    as ->.
  { split; [intros H; now inversion H|]. apply Sorted_nonneg_cons.
    apply List.Forall_forall. intros r Hin.
    apply in_map_iff in Hin as (c & <- & _). pose proof (rank_bounds c). lia. }
  split; [tauto|]. intros (H1 & H2 & H3 & H4).
  repeat split; try assumption; intros H; now contradiction H.
Qed.

(** ** Rendering after caught exceptions *)

Lemma list_field_run (k : category) (b : Builder.t) (calls : list fragment_call) :
  is_list_category k = true ->
  list_field k (run_caught calls b) = list_field k b ++ fragments k calls.
Proof.
  intros Hk. revert b. induction calls as [|c calls IH]; intros b.
  - cbn [run_caught fragments filter map]. now rewrite app_nil_r.
  - cbn [run_caught]. rewrite IH, (list_field_step k c b Hk), <- app_assoc.
    f_equal. change (c :: calls) with ([c] ++ calls).
    now rewrite fragments_app.
Qed.

Lemma single_field_run (k : category) (calls : list fragment_call) (b : Builder.t) :
  is_list_category k = false ->
  single_field k (run_caught calls b) =
  if String.eqb (single_field k b) "" then first_nonempty (fragments k calls)
  else single_field k b.
Proof.
  intros Hk. revert b. induction calls as [|c calls IH]; intros b.
  - cbn [run_caught fragments filter map first_nonempty].
    now destruct (String.eqb_spec (single_field k b) "").
  - destruct (String.eqb_spec (single_field k b) "") as [Hempty|Hset].
    + cbn [run_caught]. rewrite IH, state_after_invoke, fragments_cons.
      destruct k; try discriminate Hk; destruct c as [v|v|v|v|v|v];
        cbn [category_of already_set single_field formatted] in *;
        rewrite ?Hempty; cbn [String.eqb negb];
        try destruct (negb _);
        case_decide; try (exfalso; congruence);
        unfold applied;
        cbn [Builder.elem Builder.idTag Builder.pseudoElem Builder.set_elem
             Builder.set_idTag Builder.set_classes Builder.set_attributes
             Builder.set_pseudoClasses Builder.set_pseudoElem Builder.set_order
             first_nonempty];
        rewrite ?Hempty, ?append_cons; cbn [String.eqb]; reflexivity.
    + cbn [run_caught]. rewrite IH, (single_field_step k c b Hk Hset).
      destruct (String.eqb_spec (single_field k b) ""); [contradiction|].
      reflexivity.
Qed.

(** X15. What [stringify()] returns after any sequence of calls on a new
    builder, made one by one with every exception caught: the first
    non-empty element value, the first id, every class, attribute and
    pseudo-class value in call order, also those of calls that raised, and
    the first pseudo-element; each in its formatted form, category by
    category. *)
Theorem stringify_after_caught_calls (calls : list fragment_call) :
  Builder.stringify (run_caught calls Builder.constructor)
  = (run_caught calls Builder.constructor, inr (rendered_caught calls)).
Proof.
  rewrite stringify_text. do 2 f_equal. unfold text, rendered_caught.
  pose proof (single_field_run CatElement calls Builder.constructor eq_refl) as He.
  pose proof (single_field_run CatId calls Builder.constructor eq_refl) as Hi.
  pose proof (single_field_run CatPseudoElement calls Builder.constructor eq_refl) as Hq.
  pose proof (list_field_run CatClass Builder.constructor calls eq_refl) as Hc.
  pose proof (list_field_run CatAttribute Builder.constructor calls eq_refl) as Ha.
  pose proof (list_field_run CatPseudoClass Builder.constructor calls eq_refl) as Hp.
  cbn [single_field list_field Builder.constructor Builder.elem Builder.idTag
       Builder.pseudoElem Builder.classes Builder.attributes
       Builder.pseudoClasses String.eqb app] in He, Hi, Hq, Hc, Ha, Hp.
  now rewrite He, Hi, Hq, Hc, Ha, Hp.
Qed.

(** [class('a')], [id('m')] which raises, [id('n')] which raises, [class('b')]
    which raises: the id of the first [id] call is rendered, before the
    classes. *)
Example stringify_after_caught_calls_example :
  outcome (Builder.stringify
             (run_caught [AddClass "a"; AddId "m"; AddId "n"; AddClass "b"]
                Builder.constructor))
  = inr "#m.a.b".
Proof. reflexivity. Qed.

(** ** The pseudo-element closes the builder *)

Lemma reachable_pseudoElem_rank (b : Builder.t) :
  reachable b -> Builder.pseudoElem b <> "" -> In 6%Z (Builder.order b).
Proof.
  induction 1 as [|b c _ IH]; [intros H; now contradiction H|].
  rewrite state_after_invoke. destruct (already_set c b); [exact IH|].
  rewrite order_applied. intros Hset. apply in_or_app.
  destruct c; try (left; apply IH; exact Hset). right. now left.
Qed.

(** X16. Once the pseudo-element of a builder is set, every fragment call
    on it raises: a [pseudoElement] call the duplicate error, an
    [element] or [id] call the duplicate error when that fragment is set
    and the order error otherwise, a [class], [attr] or [pseudoClass] call
    the order error. *)
Theorem pseudo_element_closes_builder (b : Builder.t) (c : fragment_call) :
  reachable b ->
  Builder.pseudoElem b <> "" ->
  outcome (invoke c b) =
  if already_set c b then inl DuplicateFragmentError
  else inl OrderViolationError.
Proof.
  intros Hr Hset. pose proof (reachable_pseudoElem_rank b Hr Hset) as H6.
  rewrite outcome_invoke. destruct (already_set c b) eqn:Hc; [reflexivity|].
  destruct c as [v|v|v|v|v|v];
    try (rewrite (lower_rank_fails _ _ 6%Z H6); [reflexivity | reflexivity]).
  cbn [already_set] in Hc. apply not_set_empty in Hc. contradiction.
Qed.

(** After [element('a').pseudoElement('after')], [class('x')] raises the
    order error. *)
Lemma pseudo_element_closes_builder_witness :
  outcome (invoke (AddClass "x")
             (run_caught [AddElement "a"; AddPseudoElement "after"]
                Builder.constructor))
  = inl OrderViolationError.
Proof.
  apply (pseudo_element_closes_builder
           (run_caught [AddElement "a"; AddPseudoElement "after"]
              Builder.constructor) (AddClass "x")).
  - apply reachable_run_caught, reachable_new.
  - vm_compute. discriminate.
Defined.

(** ** Values are taken as they are *)

(** X17. The values are copied into the output without validation or
    escaping: on any builder, one [class] call whose value contains a dot
    renders exactly as the two [class] calls with the parts before and
    after the dot. *)
Theorem class_values_are_not_escaped (b : Builder.t) (u v : string) :
  outcome (Builder.stringify (run_caught [AddClass (u +:+ "." +:+ v)] b))
  = outcome (Builder.stringify (run_caught [AddClass u; AddClass v] b)).
Proof.
  rewrite !stringify_text. unfold outcome. cbn [snd run_caught].
  rewrite !state_after_invoke. cbn [already_set]. unfold text, applied.
  cbn [Builder.elem Builder.idTag Builder.classes Builder.attributes
       Builder.pseudoClasses Builder.pseudoElem Builder.set_classes
       Builder.set_order].
  rewrite !concat_app. cbn [String.concat].
  now rewrite !append_assoc.
Qed.

(** ** The three ways a call can end *)

(** X18. A fragment call ends in one of three ways and no other: it throws
    the duplicate error, the fragment being already set, and leaves the
    builder as it was; or it throws the order error; or it returns; and in
    the last two cases the fragment was not set and the rank of the call
    has been appended to the recorded ranks. *)
Theorem fragment_call_outcomes (b : Builder.t) (c : fragment_call) :
  (outcome (invoke c b) = inl DuplicateFragmentError /\
   already_set c b = true /\
   state_after (invoke c b) = b)
  \/
  ((outcome (invoke c b) = inl OrderViolationError \/
    outcome (invoke c b) = inr tt) /\
   already_set c b = false /\
   Builder.order (state_after (invoke c b)) = Builder.order b ++ [rank c]).
Proof.
  rewrite outcome_invoke, state_after_invoke.
  destruct (already_set c b); [left; auto|].
  right. split; [|split; [reflexivity | apply order_applied]].
  destruct (order_scan 0 (Builder.order b ++ [rank c])) as [e|m] eqn:Hscan.
  - left. f_equal. eapply order_scan_error, Hscan.
  - now right.
Qed.

(** ** The ranks are not rendered *)

(** X19. [stringify()] depends on the six fragment fields only: two
    builders that agree on them render the same string, whatever ranks
    each has recorded. *)
Theorem order_is_not_rendered (b1 b2 : Builder.t) :
  Builder.elem b1 = Builder.elem b2 ->
  Builder.idTag b1 = Builder.idTag b2 ->
  Builder.classes b1 = Builder.classes b2 ->
  Builder.attributes b1 = Builder.attributes b2 ->
  Builder.pseudoClasses b1 = Builder.pseudoClasses b2 ->
  Builder.pseudoElem b1 = Builder.pseudoElem b2 ->
  outcome (Builder.stringify b1) = outcome (Builder.stringify b2).
Proof.
  intros He Hi Hc Ha Hp Hq. rewrite !stringify_text. unfold outcome, text.
  cbn [snd]. now rewrite He, Hi, Hc, Ha, Hp, Hq.
Qed.

(** [element('').class('a')] has recorded the ranks 1 and 3, [class('a')]
    the rank 3 alone. *)
Lemma order_is_not_rendered_witness :
  Builder.order (run_caught [AddElement ""; AddClass "a"] Builder.constructor)
    <> Builder.order (run_caught [AddClass "a"] Builder.constructor) /\
  outcome (Builder.stringify
             (run_caught [AddElement ""; AddClass "a"] Builder.constructor))
  = outcome (Builder.stringify (run_caught [AddClass "a"] Builder.constructor)).
Proof.
  split; [discriminate|].
  apply (order_is_not_rendered
           (run_caught [AddElement ""; AddClass "a"] Builder.constructor)
           (run_caught [AddClass "a"] Builder.constructor));
    reflexivity.
Defined.

(** * [getJSON] and [fromJSON] *)

(** ** Induction on values *)

Lemma value_induction (P : value -> Prop) :
  P VUndefined -> P VNull -> (forall b, P (VBool b)) ->
  (forall n, P (VNumber n)) -> (forall s, P (VString s)) ->
  (forall elements, Forall P elements -> P (VArray elements)) ->
  (forall fields, Forall (fun kv => P (snd kv)) fields -> P (VObject fields)) ->
  forall v, P v.
Proof.
  intros Hu Hn Hb Hnum Hs Ha Ho.
  fix IH 1. intros [| |b|n|s|elements|fields].
  - exact Hu.
  - exact Hn.
  - apply Hb.
  - apply Hnum.
  - apply Hs.
  - apply Ha. induction elements as [|e elements IHl]; constructor;
      [apply IH | exact IHl].
  - apply Ho. induction fields as [|[k e] fields IHl]; constructor;
      [apply IH | exact IHl].
Qed.

(** ** Strings *)

Lemma parse_chars_escape_char (c : ascii) (rest acc : string) :
  parse_chars (escape_char c +:+ rest) acc
  = parse_chars rest (acc +:+ String c "").
Proof.
  destruct c as [[] [] [] [] [] [] [] []]; reflexivity.
Qed.

Lemma parse_chars_escape (s rest acc : string) :
  parse_chars (escape s +:+ String quotation_mark rest) acc
  = Normal (acc +:+ s, rest).
Proof.
  revert acc. induction s as [|c s IH]; intros acc.
  - cbn [escape]. rewrite append_nil_l, append_nil_r. reflexivity.
  - cbn [escape]. rewrite append_assoc, parse_chars_escape_char, IH.
    rewrite append_assoc. reflexivity.
Qed.

Lemma parse_quoted (s rest : string) :
  exists t, QuoteJSONString s +:+ rest = String quotation_mark t /\
            parse_chars t "" = Normal (s, rest).
Proof.
  exists (escape s +:+ String quotation_mark rest). split.
  - unfold QuoteJSONString. rewrite append_cons, append_assoc. reflexivity.
  - rewrite parse_chars_escape. reflexivity.
Qed.

(** ** Numbers *)

Lemma delimited_stops (rest : string) :
  delimited rest = true ->
  read_digits rest = (Decimal.Nil, rest) /\
  starts_fraction_or_exponent rest = false /\
  skip_whitespace rest = rest.
Proof.
  destruct rest as [|c rest]; [intros _; repeat split|].
  cbn [delimited]. rewrite !orb_true_iff, !Ascii.eqb_eq.
  intros [[-> | ->] | ->]; repeat split.
Qed.

Lemma read_digits_string_of_uint (d : Decimal.uint) (rest : string) :
  delimited rest = true ->
  read_digits (string_of_uint d +:+ rest) = (d, rest).
Proof.
  intros Hrest. induction d; cbn [string_of_uint];
    rewrite ?append_cons; cbn [read_digits digit_of_char Ascii.eqb Bool.eqb];
    rewrite ?IHd; try reflexivity.
  rewrite append_nil_l. apply delimited_stops, Hrest.
Qed.

Lemma to_uint_normal (p : positive) :
  Decimal.unorm (Pos.to_uint p) = Pos.to_uint p.
Proof.
  pose proof (DecimalPos.Unsigned.to_of (Pos.to_uint p)) as H.
  rewrite DecimalPos.Unsigned.of_to in H. symmetry. exact H.
Qed.

Lemma string_of_uint_head (d : Decimal.uint) (rest : string) :
  d <> Decimal.Nil ->
  exists c t, string_of_uint d +:+ rest = String c t /\
              is_digit c = true /\ is_whitespace c = false /\
              Ascii.eqb c "-" = false.
Proof.
  intros Hd. destruct d; [contradiction| ..]; cbn [string_of_uint];
    rewrite append_cons; eexists _, _; repeat split.
Qed.

(** The digits of a positive number read back as that number. *)
Lemma parse_number_positive (p : positive) (rest : string) :
  (Z.pos p < 2 ^ 53)%Z ->
  delimited rest = true ->
  parse_number (string_of_uint (Pos.to_uint p) +:+ rest)
  = Normal (Int (Z.pos p), rest).
Proof.
  intros Hp Hrest.
  destruct (string_of_uint_head (Pos.to_uint p) rest
              (DecimalPos.Unsigned.to_uint_nonnil p))
    as (c & t & Heq & _ & _ & Hminus).
  unfold parse_number. rewrite Heq, Hminus, <- Heq.
  rewrite (read_digits_string_of_uint _ _ Hrest), to_uint_normal.
  rewrite (Decimal.internal_uint_dec_lb _ _ eq_refl). cbn [negb].
  destruct (delimited_stops rest Hrest) as (_ & -> & _).
  change (N.of_uint (Pos.to_uint p)) with (Pos.of_uint (Pos.to_uint p)).
  rewrite DecimalPos.Unsigned.of_to.
  assert ((N.pos p <? 2 ^ 53)%N = true) as ->.
  { apply N.ltb_lt. change (2 ^ 53)%N with (Z.to_N (2 ^ 53)). lia. }
  reflexivity.
Qed.

Lemma parse_number_integer (z : Z) (rest : string) :
  (Z.abs z < 2 ^ 53)%Z ->
  delimited rest = true ->
  parse_number (integer_to_string z +:+ rest) = Normal (Int z, rest).
Proof.
  intros Hz Hrest. destruct z as [|p|p]; cbn [integer_to_string].
  - rewrite append_cons, append_nil_l. unfold parse_number.
    cbn [Ascii.eqb Bool.eqb read_digits digit_of_char].
    destruct (delimited_stops rest Hrest) as (-> & -> & _). reflexivity.
  - apply parse_number_positive; [lia | exact Hrest].
  - rewrite append_cons. unfold parse_number. cbn [Ascii.eqb Bool.eqb].
    pose proof (parse_number_positive p rest ltac:(lia) Hrest) as H.
    unfold parse_number in H.
    destruct (string_of_uint_head (Pos.to_uint p) rest
                (DecimalPos.Unsigned.to_uint_nonnil p))
      as (c & t & Heq & _ & _ & Hminus).
    rewrite Heq, Hminus, <- Heq in H.
    destruct (read_digits (string_of_uint (Pos.to_uint p) +:+ rest)) as [d r].
    destruct (negb _); [discriminate|].
    destruct (starts_fraction_or_exponent r); [discriminate|].
    destruct (N.of_uint d <? 2 ^ 53)%N; [|discriminate].
    injection H as Hd ->. cbn [negb]. do 3 f_equal. lia.
Qed.

Lemma integer_to_string_head (z : Z) (rest : string) :
  exists c t, integer_to_string z +:+ rest = String c t /\
              (is_digit c || Ascii.eqb c "-") = true /\
              is_whitespace c = false.
Proof.
  destruct z as [|p|p]; cbn [integer_to_string].
  - rewrite append_cons. eexists _, _. repeat split.
  - destruct (string_of_uint_head (Pos.to_uint p) rest
                (DecimalPos.Unsigned.to_uint_nonnil p))
      as (c & t & Heq & Hd & Hw & _).
    exists c, t. rewrite Hd. auto.
  - rewrite append_cons. eexists _, _. repeat split.
Qed.

(** ** The text of a plain value *)

Lemma serialize_plain (v : value) :
  plain v = true -> SerializeJSONProperty v = Some (element_text v).
Proof. destruct v as [| |[]|n|s|es|fs]; try discriminate; reflexivity. Qed.

Lemma element_text_array (es : list value) :
  element_text (VArray es)
  = "[" +:+ String.concat "," (map element_text es) +:+ "]".
Proof. reflexivity. Qed.

Lemma members_of_plain (fs : list (string * value)) :
  forallb (fun kv => plain (snd kv)) fs = true ->
  flat_map (fun kv => match SerializeJSONProperty (snd kv) with
                      | Some text => [QuoteJSONString (fst kv) +:+ ":" +:+ text]
                      | None => []
                      end) fs
  = map member_text fs.
Proof.
  induction fs as [|kv fs IH]; [reflexivity|].
  cbn [forallb flat_map map]. rewrite andb_true_iff. intros [Hkv Hfs].
  rewrite (serialize_plain _ Hkv), (IH Hfs). reflexivity.
Qed.

Lemma element_text_object (fs : list (string * value)) :
  forallb (fun kv => plain (snd kv)) fs = true ->
  element_text (VObject fs)
  = "{" +:+ String.concat "," (map member_text fs) +:+ "}".
Proof.
  intros Hfs. unfold element_text. cbn [SerializeJSONProperty].
  now rewrite (members_of_plain fs Hfs).
Qed.

Lemma sign_or_digit (c : ascii) :
  (is_digit c || Ascii.eqb c "-") = true ->
  is_whitespace c = false /\ Ascii.eqb c "]" = false /\ Ascii.eqb c "}" = false.
Proof.
  destruct c as [[] [] [] [] [] [] [] []]; cbn; intros H;
    try discriminate H; repeat split.
Qed.

Lemma text_begins (v : value) (rest : string) :
  plain v = true -> begins_value (element_text v +:+ rest) = true.
Proof.
  destruct v as [| |[]|[| | |z]|s|es|fs]; try discriminate; intros _;
    try (cbn [element_text SerializeJSONProperty]; rewrite append_cons; reflexivity).
  - change (element_text (VNumber (Int z))) with (integer_to_string z).
    destruct (integer_to_string_head z rest) as (c & t & -> & Hc & _).
    destruct (sign_or_digit c Hc) as (Hw & Hb & Hbr).
    cbn [begins_value]. now rewrite Hw, Hb, Hbr.
  - change (element_text (VString s)) with (QuoteJSONString s).
    unfold QuoteJSONString. rewrite append_cons. reflexivity.
Qed.

(** ** One step of the parser *)

Lemma parse_value_number (f : nat) (c : ascii) (s : string) :
  (is_digit c || Ascii.eqb c "-") = true ->
  parse_value (S f) (String c s)
  = andThen (parse_number (String c s)) (fun r => Normal (VNumber (fst r), snd r)).
Proof.
  intros Hc. destruct (sign_or_digit c Hc) as (Hw & _).
  cbn [parse_value skip_whitespace]. now rewrite Hw, Hc.
Qed.

Lemma parse_value_string (f : nat) (s : string) :
  parse_value (S f) (String quotation_mark s)
  = andThen (parse_chars s "") (fun r => Normal (VString (fst r), snd r)).
Proof. reflexivity. Qed.

Lemma parse_value_array (f : nat) (s : string) :
  begins_value s = true ->
  parse_value (S f) (String "[" s) = parse_elements f s [].
Proof.
  intros Hs. destruct s as [|c s]; [discriminate|].
  cbn [begins_value] in Hs. rewrite !andb_true_iff, !negb_true_iff in Hs.
  destruct Hs as [[Hw Hb] _].
  change (parse_value (S f) (String "[" (String c s)))
    with (match skip_whitespace (String c s) with
          | EmptyString => ThrowSyntaxError
          | String c' rest =>
              if Ascii.eqb c' "]" then Normal (VArray [], rest)
              else parse_elements f (String c s) []
          end).
  cbn [skip_whitespace]. now rewrite Hw, Hb.
Qed.

Lemma parse_value_object (f : nat) (s : string) :
  begins_value s = true ->
  parse_value (S f) (String "{" s) = parse_members f s [].
Proof.
  intros Hs. destruct s as [|c s]; [discriminate|].
  cbn [begins_value] in Hs. rewrite !andb_true_iff, !negb_true_iff in Hs.
  destruct Hs as [[Hw _] Hb].
  change (parse_value (S f) (String "{" (String c s)))
    with (match skip_whitespace (String c s) with
          | EmptyString => ThrowSyntaxError
          | String c' rest =>
              if Ascii.eqb c' "}" then Normal (VObject [], rest)
              else parse_members f (String c s) []
          end).
  cbn [skip_whitespace]. now rewrite Hw, Hb.
Qed.

Lemma parse_elements_step (f : nat) (s : string) (acc : list value) :
  parse_elements (S f) s acc
  = andThen (parse_value f s)
      (fun r =>
         match skip_whitespace (snd r) with
         | EmptyString => ThrowSyntaxError
         | String c rest =>
             if Ascii.eqb c "," then parse_elements f rest (acc ++ [fst r])
             else if Ascii.eqb c "]" then Normal (VArray (acc ++ [fst r]), rest)
             else ThrowSyntaxError
         end).
Proof. reflexivity. Qed.

Lemma parse_members_step (f : nat) (s : string) (acc : list (string * value)) :
  parse_members (S f) (String quotation_mark s) acc
  = andThen (parse_chars s "")
      (fun key =>
         match skip_whitespace (snd key) with
         | EmptyString => ThrowSyntaxError
         | String colon s'' =>
             if Ascii.eqb colon ":" then
               andThen (parse_value f s'')
                 (fun r =>
                    match skip_whitespace (snd r) with
                    | EmptyString => ThrowSyntaxError
                    | String c rest =>
                        if Ascii.eqb c "," then
                          parse_members f rest (set_field acc (fst key) (fst r))
                        else if Ascii.eqb c "}" then
                          Normal (VObject (set_field acc (fst key) (fst r)), rest)
                        else ThrowSyntaxError
                    end)
             else ThrowSyntaxError
         end).
Proof. reflexivity. Qed.

(** ** Reading back the text of a value *)

Lemma concat_comma_cons (t : string) (ts : list string) (rest : string) :
  ts <> [] ->
  String.concat "," (t :: ts) +:+ rest
  = t +:+ String "," (String.concat "," ts +:+ rest).
Proof.
  destruct ts as [|t' ts]; [contradiction|]. intros _.
  cbn [String.concat]. rewrite !append_assoc, append_cons, append_nil_l.
  reflexivity.
Qed.

Lemma elements_read_back (es : list value) :
  Forall reads_back es ->
  forallb plain es = true ->
  es <> [] ->
  forall (fuel : nat) (rest : string) (acc : list value),
    list_sum (map (fun e => S (need e)) es) <= fuel ->
    parse_elements fuel
      (String.concat "," (map element_text es) +:+ String "]" rest) acc
    = Normal (VArray (acc ++ es), rest).
Proof.
  induction 1 as [|e es He Hes IH]; [contradiction|].
  cbn [forallb]. rewrite andb_true_iff. intros [Hpe Hpes] _.
  intros fuel rest acc Hfuel. simpl in Hfuel.
  destruct fuel as [|f]; [lia|]. rewrite parse_elements_step.
  destruct es as [|e' es].
  - cbn [map String.concat].
    rewrite (He Hpe f (String "]" rest)) by (simpl in Hfuel; try reflexivity; lia).
    reflexivity.
  - rewrite map_cons, concat_comma_cons by discriminate.
    rewrite (He Hpe f) by (try reflexivity; lia).
    cbn [andThen snd fst skip_whitespace is_whitespace Ascii.eqb Bool.eqb orb].
    rewrite (IH Hpes ltac:(discriminate) f rest (acc ++ [e])) by lia.
    now rewrite <- app_assoc.
Qed.

Lemma distinct_app_fresh (l1 l2 : list string) (k : string) :
  distinct (l1 ++ k :: l2) = true ->
  Forall (fun k' => String.eqb k' k = false) l1.
Proof.
  induction l1 as [|a l1 IH]; [constructor|].
  cbn [app distinct]. rewrite andb_true_iff, negb_true_iff.
  intros [Ha Hd]. constructor; [|exact (IH Hd)].
  rewrite existsb_app in Ha. apply orb_false_iff in Ha as [_ Ha].
  cbn [existsb] in Ha. now apply orb_false_iff in Ha as [Ha _].
Qed.

Lemma enumeration_order_app (l1 l2 : list string) (k : string) :
  enumeration_order (l1 ++ k :: l2) = true ->
  Forall (fun k' => enumerated_before k k' = false) l1.
Proof.
  induction l1 as [|a l1 IH]; [constructor|].
  cbn [app enumeration_order]. rewrite andb_true_iff.
  intros [Ha Ho]. constructor; [|exact (IH Ho)].
  rewrite forallb_app in Ha. apply andb_true_iff in Ha as [_ Ha].
  cbn [forallb] in Ha. apply andb_true_iff in Ha as [Ha _].
  now apply negb_true_iff in Ha.
Qed.

Lemma insert_field_last (acc : list (string * value)) (k : string) (v : value) :
  Forall (fun k' => enumerated_before k k' = false) (map fst acc) ->
  insert_field acc k v = acc ++ [(k, v)].
Proof.
  induction acc as [|[k' v'] acc IH]; [reflexivity|].
  cbn [map fst]. intros H. inversion H as [|? ? Hk Hacc]; subst.
  cbn [insert_field app]. rewrite Hk. now rewrite (IH Hacc).
Qed.

Lemma set_field_fresh (acc : list (string * value)) (k : string) (v : value) :
  Forall (fun k' => String.eqb k' k = false) (map fst acc) ->
  Forall (fun k' => enumerated_before k k' = false) (map fst acc) ->
  set_field acc k v = acc ++ [(k, v)].
Proof.
  intros Hnew Horder. unfold set_field.
  assert (existsb (fun kv => String.eqb (fst kv) k) acc = false) as ->.
  { clear Horder. induction acc as [|[k' v'] acc IH]; [reflexivity|].
    cbn [map fst] in Hnew. inversion Hnew as [|? ? Hk Hacc]; subst.
    cbn [existsb fst]. now rewrite Hk, (IH Hacc). }
  now apply insert_field_last.
Qed.

Lemma member_text_split (kv : string * value) (rest : string) :
  exists t, member_text kv +:+ rest = String quotation_mark t /\
            parse_chars t ""
            = Normal (fst kv, String ":" (element_text (snd kv) +:+ rest)).
Proof.
  unfold member_text.
  destruct (parse_quoted (fst kv) (String ":" (element_text (snd kv) +:+ rest)))
    as (t & Heq & Ht).
  exists t. split; [|exact Ht].
  rewrite <- Heq, !append_assoc, append_cons, append_nil_l. reflexivity.
Qed.

Lemma members_read_back (fs : list (string * value)) :
  Forall (fun kv => reads_back (snd kv)) fs ->
  forallb (fun kv => plain (snd kv)) fs = true ->
  fs <> [] ->
  forall (fuel : nat) (rest : string) (acc : list (string * value)),
    distinct (map fst (acc ++ fs)) = true ->
    enumeration_order (map fst (acc ++ fs)) = true ->
    list_sum (map (fun kv => S (need (snd kv))) fs) <= fuel ->
    parse_members fuel
      (String.concat "," (map member_text fs) +:+ String "}" rest) acc
    = Normal (VObject (acc ++ fs), rest).
Proof.
  induction 1 as [|[k v] fs Hv Hfs IH]; [contradiction|].
  cbn [forallb snd]. cbn [snd] in Hv. rewrite andb_true_iff. intros [Hpv Hpfs] _.
  intros fuel rest acc Hd Ho Hfuel. simpl in Hfuel.
  destruct fuel as [|f]; [lia|].
  assert (set_field acc k v = acc ++ [(k, v)]) as Hset.
  { rewrite map_app in Hd, Ho. cbn [map fst] in Hd, Ho.
    apply set_field_fresh;
      [exact (distinct_app_fresh _ _ _ Hd) | exact (enumeration_order_app _ _ _ Ho)]. }
  destruct fs as [|kv' fs].
  - cbn [map String.concat].
    destruct (member_text_split (k, v) (String "}" rest)) as (t & -> & Ht).
    rewrite parse_members_step, Ht.
    cbn [andThen snd fst skip_whitespace is_whitespace Ascii.eqb Bool.eqb orb].
    rewrite (Hv Hpv f (String "}" rest)) by (simpl in Hfuel; try reflexivity; lia).
    cbn [andThen snd fst skip_whitespace is_whitespace Ascii.eqb Bool.eqb orb].
    now rewrite Hset.
  - rewrite map_cons, concat_comma_cons by discriminate.
    destruct (member_text_split (k, v)
                (String "," (String.concat "," (map member_text (kv' :: fs))
                             +:+ String "}" rest))) as (t & -> & Ht).
    rewrite parse_members_step, Ht.
    cbn [andThen snd fst skip_whitespace is_whitespace Ascii.eqb Bool.eqb orb].
    rewrite (Hv Hpv f) by (try reflexivity; lia).
    cbn [andThen snd fst skip_whitespace is_whitespace Ascii.eqb Bool.eqb orb].
    rewrite Hset.
    rewrite (IH Hpfs ltac:(discriminate) f rest (acc ++ [(k, v)]));
      [now rewrite <- app_assoc | now rewrite <- app_assoc
      | now rewrite <- app_assoc | lia].
Qed.

Lemma array_text (es : list value) (rest : string) :
  element_text (VArray es) +:+ rest
  = String "[" (String.concat "," (map element_text es) +:+ String "]" rest).
Proof. rewrite element_text_array, !append_assoc. reflexivity. Qed.

Lemma object_text (fs : list (string * value)) (rest : string) :
  forallb (fun kv => plain (snd kv)) fs = true ->
  element_text (VObject fs) +:+ rest
  = String "{" (String.concat "," (map member_text fs) +:+ String "}" rest).
Proof.
  intros Hp. rewrite (element_text_object fs Hp), !append_assoc. reflexivity.
Qed.

Lemma plain_reads_back (v : value) : reads_back v.
Proof.
  induction v as [| |b|n|s|es IH|fs IH] using value_induction;
    intros Hplain fuel rest Hfuel Hrest;
    (destruct fuel as [|f]; [cbn [need] in Hfuel; lia|]).
  - discriminate.
  - reflexivity.
  - destruct b; reflexivity.
  - destruct n as [| | |z]; try discriminate.
    change (element_text (VNumber (Int z))) with (integer_to_string z).
    destruct (integer_to_string_head z rest) as (c & t & Heq & Hc & _).
    rewrite Heq, (parse_value_number f c t Hc), <- Heq.
    rewrite parse_number_integer; [reflexivity | | exact Hrest].
    cbn [plain] in Hplain. now apply Z.ltb_lt.
  - change (element_text (VString s)) with (QuoteJSONString s).
    destruct (parse_quoted s rest) as (t & -> & Ht).
    now rewrite parse_value_string, Ht.
  - rewrite array_text.
    cbn [plain] in Hplain. cbn [need] in Hfuel.
    destruct es as [|e es].
    + reflexivity.
    + rewrite parse_value_array.
      * rewrite (elements_read_back (e :: es) IH Hplain ltac:(discriminate)
                   f rest []) by lia.
        reflexivity.
      * cbn [map]. cbn [forallb] in Hplain. apply andb_true_iff in Hplain as [He _].
        destruct es as [|e' es].
        -- cbn [map String.concat]. now apply text_begins.
        -- rewrite concat_comma_cons by discriminate. now apply text_begins.
  - cbn [plain] in Hplain. apply andb_true_iff in Hplain as [Hd Hp].
    apply andb_true_iff in Hd as [Hd Ho].
    rewrite (object_text fs rest Hp).
    cbn [need] in Hfuel.
    destruct fs as [|kv fs].
    + reflexivity.
    + rewrite parse_value_object.
      * rewrite (members_read_back (kv :: fs) IH Hp ltac:(discriminate)
                   f rest []) by (try exact Hd; try exact Ho; lia).
        reflexivity.
      * assert (exists t, String.concat "," (map member_text (kv :: fs))
                          +:+ String "}" rest = String quotation_mark t)
          as [t ->]; [|reflexivity].
        destruct fs as [|kv' fs].
        -- cbn [map String.concat].
           destruct (member_text_split kv (String "}" rest)) as (t & -> & _). eauto.
        -- rewrite map_cons, concat_comma_cons by discriminate.
           destruct (member_text_split kv
                       (String "," (String.concat "," (map member_text (kv' :: fs))
                                    +:+ String "}" rest))) as (t & -> & _). eauto.
Qed.

(** ** The length of the text is fuel enough *)

Lemma joined_length {A} (f : A -> nat) (g : A -> string) (l : list A) :
  Forall (fun a => f a <= String.length (g a)) l ->
  list_sum (map (fun a => S (f a)) l)
  <= S (String.length (String.concat "," (map g l))).
Proof.
  induction 1 as [|a l Ha Hl IH]; [cbn; lia|].
  destruct l as [|a' l].
  - cbn [map list_sum String.concat]. simpl. lia.
  - rewrite !map_cons in *. simpl list_sum in *.
    change (String.concat "," (g a :: g a' :: map g l))
      with (g a +:+ "," +:+ String.concat "," (g a' :: map g l)).
    rewrite !length_append. cbn [String.length]. lia.
Qed.

Lemma need_le_length (v : value) :
  plain v = true -> need v <= String.length (element_text v).
Proof.
  induction v as [| |b|n|s|es IH|fs IH] using value_induction; intros Hplain.
  - discriminate.
  - cbn. lia.
  - destruct b; cbn; lia.
  - destruct n as [| | |z]; try discriminate.
    change (element_text (VNumber (Int z))) with (integer_to_string z).
    destruct (integer_to_string_head z "") as (c & t & Heq & _).
    rewrite append_nil_r in Heq. rewrite Heq. cbn. lia.
  - cbn. lia.
  - rewrite <- (append_nil_r (element_text (VArray es))), array_text.
    cbn [need String.length]. rewrite length_append. cbn [String.length].
    cbn [plain] in Hplain.
    pose proof (joined_length need element_text es) as H.
    assert (Forall (fun a => need a <= String.length (element_text a)) es) as Hall.
    { rewrite forallb_forall in Hplain. rewrite List.Forall_forall in IH |- *.
      intros e He. apply IH; [exact He | apply Hplain, He]. }
    specialize (H Hall). lia.
  - cbn [plain] in Hplain. apply andb_true_iff in Hplain as [_ Hp].
    rewrite <- (append_nil_r (element_text (VObject fs))), (object_text fs "" Hp).
    cbn [need String.length]. rewrite length_append. cbn [String.length].
    pose proof (joined_length (fun kv => need (snd kv)) member_text fs) as H.
    assert (Forall (fun kv => need (snd kv) <= String.length (member_text kv)) fs)
      as Hall.
    { rewrite forallb_forall in Hp. rewrite List.Forall_forall in IH |- *.
      intros kv Hkv. unfold member_text. rewrite !length_append.
      specialize (IH kv Hkv (Hp kv Hkv)). lia. }
    specialize (H Hall). lia.
Qed.

(** [JSON.parse] reads the text of a plain value back as that value. *)
Lemma parse_stringify (v : value) :
  plain v = true ->
  JSON.stringify v = Some (element_text v) /\
  JSON.parse (element_text v) = Normal v.
Proof.
  intros Hplain. split; [exact (serialize_plain v Hplain)|].
  unfold JSON.parse.
  rewrite <- (append_nil_r (element_text v)) at 2.
  rewrite (plain_reads_back v Hplain _ "");
    [reflexivity | pose proof (need_le_length v Hplain); lia | reflexivity].
Qed.

(** ** The round trip *)




Example fromJSON_rectangle :
  option_map (fun text => andThen (fromJSON area_behaviour text)
                            (fun o => Normal (get_property o "width",
                                              get_property o "getArea")))
    (getJSON rectangle_data)
  = Some (Normal (Data (VNumber (Int 10)), Operation "width * height")).
Proof. vm_compute. reflexivity. Qed.
